(** * structmap: decoding a [map[string]interface{}] into a struct

    A shallow embedding of [structmap.go] (the [Decoder] and its [Decode]
    method) and of the helpers of package [internal], followed by the
    properties of the decode engine.

    Go values are modelled as trees: a pointer owns the cell it points to,
    so a write handle to a record is the record's current state and a call
    returns the state it leaves behind (no two fields share a cell; the
    engine's contract assumes exclusive ownership of the target).  The
    universe of types is a fragment of Go's: booleans, the integer kinds,
    strings, pointers, slices, [map[string]interface{}], [interface{}]
    and (unnamed, non-recursive) struct types. *)

From stdpp Require Import gmap strings list.
From Stdlib Require Import ZArith Lia.

Set Warnings "-register-all".
Local Open Scope Z_scope.
Local Open Scope string_scope.

(** ** Types and values *)

Inductive intkind :=
| Int | Int8 | Int16 | Int32 | Int64 | Uint | Uint8 | Uint16 | Uint32 | Uint64.

(** [reflect.Type], restricted to the fragment. *)
Inductive type :=
| TBool
| TInt (k : intkind)
| TString
| TPtr (e : type)
| TSlice (e : type)
| TMapping                       (* map[string]interface{} *)
| TInterface                     (* interface{} *)
| TStruct (fs : list tfield)
with tfield :=
| MkTField (name tag : string) (anon : bool) (t : type).

(** A Go value.  A nil pointer remembers its element type, so every value
    determines its static type.  Reads of a nil map behave like reads of
    the empty map, and [Decode] never writes a map, so both are [∅]. *)
Inductive value :=
| VBool (b : bool)
| VInt (k : intkind) (z : Z)
| VString (s : string)
| VNil (t : type)                (* a nil pointer to t *)
| VRef (v : value)               (* pointer to an owned cell *)
| VSlice (t : type) (l : list value)
| VMapping (m : gmap string (option value))
| VIface (o : option value)      (* an interface{} slot; None is nil *)
| VStruct (fs : list field)
with field :=
| MkField (name tag : string) (anon : bool) (v : value).

(** The dynamic content of an [interface{}]: [None] is nil. *)
Abbreviation dyn := (option value).
(** The input of a decode call. *)
Abbreviation SourceMapping := (gmap string (option value)).

Definition tftype (f : tfield) : type := let 'MkTField _ _ _ t := f in t.

Definition fname (f : field) : string := let 'MkField n _ _ _ := f in n.
Definition ftag (f : field) : string := let 'MkField _ t _ _ := f in t.
Definition fanon (f : field) : bool := let 'MkField _ _ a _ := f in a.
Definition fvalue (f : field) : value := let 'MkField _ _ _ v := f in v.
Definition with_value (f : field) (v : value) : field :=
  MkField (fname f) (ftag f) (fanon f) v.

(** [reflect.Kind]; [Invalid] is the kind of the zero [reflect.Value]. *)
Inductive Kind :=
| Invalid | KBool | KInt (k : intkind) | KString | KPtr | KSlice | KMap
| KInterface | KStruct.

#[export] Instance intkind_eq_dec : EqDecision intkind.
Proof. solve_decision. Defined.
#[export] Instance Kind_eq_dec : EqDecision Kind.
Proof. solve_decision. Defined.

Definition TKind (t : type) : Kind :=
  match t with
  | TBool => KBool
  | TInt k => KInt k
  | TString => KString
  | TPtr _ => KPtr
  | TSlice _ => KSlice
  | TMapping => KMap
  | TInterface => KInterface
  | TStruct _ => KStruct
  end.

(** [Type.Elem()].  Go panics outside pointer, slice, map, array and
    channel types; every call below is guarded by a kind test. *)
Definition TElem (t : type) : type :=
  match t with
  | TPtr e | TSlice e => e
  | TMapping => TInterface
  | _ => t
  end.

(** [Value.Type()] of a valid value. *)
Fixpoint TypeOf (v : value) : type :=
  match v with
  | VBool _ => TBool
  | VInt k _ => TInt k
  | VString _ => TString
  | VNil t => TPtr t
  | VRef x => TPtr (TypeOf x)
  | VSlice t _ => TSlice t
  | VMapping _ => TMapping
  | VIface _ => TInterface
  | VStruct fs =>
      TStruct ((fix go (l : list field) : list tfield :=
                  match l with
                  | [] => []
                  | MkField n tg a x :: r => MkTField n tg a (TypeOf x) :: go r
                  end) fs)
  end.

(** [reflect.Zero(t)], the zero value of a type; [reflect.New(t)] is a
    pointer to a fresh cell holding it. *)
Fixpoint Zero (t : type) : value :=
  match t with
  | TBool => VBool false
  | TInt k => VInt k 0
  | TString => VString ""
  | TPtr e => VNil e
  | TSlice e => VSlice e []
  | TMapping => VMapping ∅
  | TInterface => VIface None
  | TStruct fs =>
      VStruct ((fix go (l : list tfield) : list field :=
                  match l with
                  | [] => []
                  | MkTField n tg a x :: r => MkField n tg a (Zero x) :: go r
                  end) fs)
  end.

Definition New (t : type) : value := VRef (Zero t).

(** A [reflect.Value] is [Some v], or [None] for the zero Value. *)
Definition ValueOf (i : dyn) : option value := i.

Definition KindOf (v : option value) : Kind :=
  match v with
  | None => Invalid
  | Some x => TKind (TypeOf x)
  end.

(** [Value.Elem()] of a pointer: the cell, or the zero Value when nil. *)
Definition Elem (v : value) : option value :=
  match v with
  | VRef x => Some x
  | VIface o => o
  | _ => None
  end.

(** [Value.IsZero()]. *)
Fixpoint IsZero (v : value) : bool :=
  match v with
  | VBool b => negb b
  | VInt _ z => Z.eqb z 0
  | VString s => bool_decide (s = "")
  | VNil _ => true
  | VRef _ => false
  | VSlice _ l => match l with [] => true | _ => false end
  | VMapping m => Nat.eqb (size m) 0
  | VIface o => match o with None => true | Some _ => false end
  | VStruct fs =>
      (fix go (l : list field) : bool :=
         match l with
         | [] => true
         | MkField _ _ _ x :: r => IsZero x && go r
         end) fs
  end.

(** Nesting depth of struct types, the bound on the recursion of
    [Decode]. *)
Fixpoint tdepth (t : type) : nat :=
  match t with
  | TPtr e => tdepth e
  | TStruct fs =>
      S ((fix go (l : list tfield) : nat :=
            match l with
            | [] => O
            | MkTField _ _ _ x :: r => Nat.max (tdepth x) (go r)
            end) fs)
  | _ => O
  end.

Fixpoint depth (v : value) : nat :=
  match v with
  | VNil t => tdepth t
  | VRef x => depth x
  | VStruct fs =>
      S ((fix go (l : list field) : nat :=
            match l with
            | [] => O
            | MkField _ _ _ x :: r => Nat.max (depth x) (go r)
            end) fs)
  | _ => O
  end.

(** ** Package reflect: conversion, assignability, exported names

    [Type.ConvertibleTo], [Value.Convert], [Type.AssignableTo] and
    [StructField.IsExported] (whether the identifier of a member starts
    with an upper-case letter, of any script) belong to Go's standard
    library; the engine is verified against any implementation of
    them. *)
Class Reflect := {
  ConvertibleTo : type -> type -> bool;
  Convert : value -> type -> value;
  AssignableTo : type -> type -> bool;
  IsExported : string -> bool
}.

(** What a recovered panic carries. *)
Inductive fault :=
| FSet (src dst : type)   (* reflect.Set: value of type src is not assignable to type dst *)
| FUser (msg : string).   (* a panic raised by a mutation step *)

(** What a slot of type [t] holds after [Set(x)]: an interface slot boxes
    a concrete value. *)
Definition store (t : type) (x : value) : value :=
  match t, x with
  | TInterface, VIface _ => x
  | TInterface, _ => VIface (Some x)
  | _, _ => x
  end.

(** [Value.Set(x)] on a settable slot of type [t]: panics unless the type
    of [x] is assignable to [t]. *)
Definition Set_ `{Reflect} (t : type) (x : value) : fault + value :=
  if AssignableTo (TypeOf x) t then inr (store t x)
  else inl (FSet (TypeOf x) t).

(** The integer conversions of Go: truncation to the destination width. *)
Definition wrap (k : intkind) (z : Z) : Z :=
  match k with
  | Int8 => (z + 2^7) mod 2^8 - 2^7
  | Int16 => (z + 2^15) mod 2^16 - 2^15
  | Int32 => (z + 2^31) mod 2^32 - 2^31
  | Int | Int64 => (z + 2^63) mod 2^64 - 2^63
  | Uint8 => z mod 2^8
  | Uint16 => z mod 2^16
  | Uint32 => z mod 2^32
  | Uint | Uint64 => z mod 2^64
  end.

Fixpoint type_eqb (s t : type) : bool :=
  match s, t with
  | TBool, TBool | TString, TString | TMapping, TMapping
  | TInterface, TInterface => true
  | TInt j, TInt k => bool_decide (j = k)
  | TPtr a, TPtr b | TSlice a, TSlice b => type_eqb a b
  | TStruct fs, TStruct gs =>
      (fix go (l : list tfield) (m : list tfield) : bool :=
         match l, m with
         | [], [] => true
         | MkTField n tg a x :: l', MkTField n' tg' a' y :: m' =>
             bool_decide (n = n') && bool_decide (tg = tg')
             && bool_decide (a = a') && type_eqb x y && go l' m'
         | _, _ => false
         end) fs gs
  | _, _ => false
  end.

Definition is_int (t : type) : bool :=
  match t with TInt _ => true | _ => false end.
Definition is_interface (t : type) : bool :=
  match t with TInterface => true | _ => false end.

(** An identifier of ASCII letters is exported when it starts with one
    of A to Z. *)
Definition ascii_exported (name : string) : bool :=
  match name with
  | String c _ =>
      let n := Ascii.nat_of_ascii c in Nat.leb 65 n && Nat.leb n 90
  | EmptyString => false
  end.

(** An executable instance, used to evaluate the engine on concrete
    inputs: identical types, integer to integer, boxing into
    [interface{}], and ASCII identifiers.  On these it agrees with Go;
    Go's further conversions (integer to string, string to byte slice)
    and upper-case letters beyond ASCII are left out. *)
Definition frag_reflect : Reflect := {|
  ConvertibleTo s t := type_eqb s t || is_interface t || (is_int s && is_int t);
  Convert v t :=
    match t, v with
    | TInt k, VInt _ z => VInt k (wrap k z)
    | _, _ => store t v
    end;
  AssignableTo s t := type_eqb s t || is_interface t;
  IsExported := ascii_exported
|}.

(** ** Package internal *)

Module internal.

(** [internal.Type]: strips every pointer layer of a type. *)
Fixpoint Type_ (t : type) : type :=
  match t with
  | TPtr e => Type_ e
  | _ => t
  end.

(** [internal.Value] on a valid value: follows pointers, and interface
    slots too when [fromInterface] is set; a nil pointer or a nil
    interface yields the zero Value, which is returned as it is. *)
Fixpoint Value_valid (v : value) (fromInterface : bool) : option value :=
  match v with
  | VNil _ => None
  | VRef x => Value_valid x fromInterface
  | VIface o =>
      if fromInterface then
        match o with
        | Some x => Value_valid x fromInterface
        | None => None
        end
      else Some v
  | _ => Some v
  end.

Definition Value (rv : option value) (fromInterface : bool) : option value :=
  match rv with
  | Some v => Value_valid v fromInterface
  | None => None
  end.

(** [internal.SetValue] on a slot of type [t]: at a pointer type a new
    cell replaces whatever the slot held and the call goes on in it; at
    any other type the value is set. *)
Fixpoint SetValue_at `{Reflect} (t : type) (v : value) : fault + value :=
  match t with
  | TPtr e =>
      match SetValue_at e v with
      | inr cell => inr (VRef cell)
      | inl p => inl p
      end
  | _ => Set_ t v
  end.

Definition SetValue `{Reflect} (target v : value) : fault + value :=
  SetValue_at (TypeOf target) v.

End internal.

(** ** Package structmap: the field descriptor and the pipeline *)

(** [FieldPart], the descriptor a mutation step works on. *)
Record FieldPart := {
  Name : string;
  Value : dyn;
  Type_ : type;
  Tag : string;
  Skip : bool
}.

Definition set_Name (fp : FieldPart) (n : string) : FieldPart :=
  {| Name := n; Value := Value fp; Type_ := Type_ fp; Tag := Tag fp;
     Skip := Skip fp |}.
Definition set_Value (fp : FieldPart) (v : dyn) : FieldPart :=
  {| Name := Name fp; Value := v; Type_ := Type_ fp; Tag := Tag fp;
     Skip := Skip fp |}.

(** What a call [mutation(fp)] does: it leaves the descriptor updated and
    returns nil, returns an error, or panics.  Here a step is a function
    of the descriptor alone; steps that also read and write state of
    their own are modelled with the decoder as an object, below. *)
Inductive mresult :=
| MOk (fp : FieldPart)
| MErr (e : string)
| MPanic (p : string).

Definition MutationFunc := FieldPart -> mresult.

Record Decoder := { mutations : list MutationFunc }.

Definition NewDecoder : Decoder := {| mutations := [] |}.

Definition AddMutation (decoder : Decoder) (mutation : MutationFunc) : Decoder :=
  {| mutations := mutations decoder ++ [mutation] |}.

(** The errors [Decode] returns; each constructor carries the arguments of
    the corresponding message. *)
Inductive error :=
| ErrNotStruct                                  (* NewStruct refused the target *)
| EStep (e : string)                            (* the error of a mutation step *)
| EShape (name : string)                        (* field %s cannot is a embedded struct, ... *)
| EMismatch (name : string) (src dst : type)    (* field %s value of type %s is not assignable to type %s *)
| EFault (p : fault).                           (* fmt.Errorf of the recovered value *)

(** The state [A] a piece of code leaves behind, and how it ended:
    normally, with an error, or panicking.  [Diverge] marks a recursion
    cut off by its bound. *)
Inductive outcome (A : Type) :=
| Done (a : A)
| Fail (e : error) (a : A)
| Panic (p : fault) (a : A)
| Diverge.
Arguments Done {A} a.
Arguments Fail {A} e a.
Arguments Panic {A} p a.
Arguments Diverge {A}.

Definition omap {A B : Type} (f : A -> B) (o : outcome A) : outcome B :=
  match o with
  | Done a => Done (f a)
  | Fail e a => Fail e (f a)
  | Panic p a => Panic p (f a)
  | Diverge => Diverge
  end.

(** The deferred function of [Decode]: a panic becomes the returned
    error. *)
Definition recover {A : Type} (o : outcome A) : outcome A :=
  match o with
  | Panic p a => Fail (EFault p) a
  | _ => o
  end.

(** The pipeline loop of one field, from index [i] on.  [lookups] records
    the keys read from [from], oldest first. *)
Inductive presult :=
| POk (fp : FieldPart)
| PErr (e : string)
| PPanic (p : string).

Fixpoint run_mutations (from : SourceMapping) (fieldName : string) (i : nat)
    (ms : list MutationFunc) (fp : FieldPart) (lookups : list string)
    : presult * list string :=
  match ms with
  | [] => (POk fp, lookups)
  | mutation :: rest =>
      match mutation fp with
      | MErr e => (PErr e, lookups)
      | MPanic p => (PPanic p, lookups)
      | MOk fp =>
          if Nat.eqb i 0 then
            let fp := if bool_decide (Name fp = "")
                      then set_Name fp fieldName else fp in
            let fp' := match from !! Name fp with
                       | Some v => set_Value fp v
                       | None => fp
                       end in
            run_mutations from fieldName (S i) rest fp' (lookups ++ [Name fp])
          else run_mutations from fieldName (S i) rest fp lookups
      end
  end.

(** The descriptor a field starts with: only [Tag] and [Type] are set. *)
Definition fresh (f : field) : FieldPart :=
  {| Name := ""; Value := None; Type_ := TypeOf (fvalue f); Tag := ftag f;
     Skip := false |}.

Definition pipeline (decoder : Decoder) (from : SourceMapping) (f : field)
    : presult * list string :=
  run_mutations from (fname f) 0 (mutations decoder) (fresh f) [].

(** ** The record model *)

(** Modelled from the spec: [NewStruct], [Struct.Fields] and the methods
    of [Field] are not among the sources.  The target must be a write
    handle to an aggregate value: it is resolved through its pointer
    layers ([internal.Value]) and refused when that does not reach a
    struct. *)
Definition NewStruct (s : value) : error + list field :=
  match internal.Value (Some s) false with
  | Some (VStruct fs) => inr fs
  | _ => inl ErrNotStruct
  end.

(** Modelled from the spec: the members of a target are addressable
    when the target was passed by pointer. *)
Definition addressable (s : value) : bool :=
  match s with VRef _ => true | _ => false end.

(** Modelled from the spec: the member at position [i] exists and is
    exported. *)
Definition visible `{Reflect} (fs : list field) (i : nat) : bool :=
  match fs !! i with
  | Some f => IsExported (fname f)
  | None => false
  end.

(** Modelled from the spec: [Struct.Fields] lists the members in
    declaration order, here by position, leaving out the unexported ones
    and, for a target that was not passed by pointer, all of them. *)
Definition Fields `{Reflect} (s : value) (fs : list field) : list nat :=
  if addressable s then
    filter (fun i => visible fs i = true) (seq 0 (length fs))
  else [].

(** Modelled from the spec: [Field.IsEmbedded] tells an anonymous
    member; [Field.IsZero] is [Value.IsZero] of the member's value. *)
Definition IsEmbedded (f : field) : bool := fanon f.

(** The target with the fields of its struct replaced. *)
Fixpoint with_fields (s : value) (fs : list field) : value :=
  match s with
  | VRef x => VRef (with_fields x fs)
  | VStruct _ => VStruct fs
  | _ => s
  end.

(** ** The decode engine *)

(** The type assertion [fp.Value.(map[string]interface{})]. *)
Definition as_mapping (v : dyn) : option SourceMapping :=
  match v with
  | Some (VMapping m) => Some m
  | _ => None
  end.

(** The dispatch test on the declared type of a field. *)
Definition is_struct_field (t : type) : bool :=
  bool_decide (TKind t = KStruct)
  || (bool_decide (TKind t = KPtr) && bool_decide (TKind (TElem t) = KStruct)).

(** The test [Kind() == reflect.Ptr && IsZero()], made on [field.Value]
    and [field] by the struct branch and on [fieldValue] by the scalar
    branch: the field is a nil pointer. *)
Definition is_nil_ptr (v : value) : bool :=
  bool_decide (TKind (TypeOf v) = KPtr) && IsZero v.

(** The field once a nil pointer has been replaced by a new cell. *)
Definition allocated (v : value) : value :=
  if is_nil_ptr v then New (TElem (TypeOf v)) else v.

(** The field once [x] has been set, through the pointer when the field
    is one. *)
Definition assigned (v x : value) : value :=
  if bool_decide (TKind (TypeOf v) = KPtr) then VRef x else x.

(** What the struct branch passes to the nested call: the new pointer
    when the field was a nil pointer, else the address of the field. *)
Definition struct_handle (v : value) : value :=
  if is_nil_ptr v then New (TElem (TypeOf v)) else VRef v.

(** The input value the scalar branch works on: [reflect.ValueOf] of the
    descriptor's value, dereferenced once when it is a pointer. *)
Definition resolved (v : dyn) : option value :=
  let v := ValueOf v in
  if bool_decide (KindOf v = KPtr)
  then match v with Some p => Elem p | None => None end
  else v.

(** The type of the slot the scalar branch assigns: the type of the
    field, less one pointer layer when it is a pointer. *)
Definition slot_type (t : type) : type :=
  if bool_decide (TKind t = KPtr) then TElem t else t.

Section Engine.
Context `{R : Reflect}.

(** The struct branch.  A nil pointer is replaced by a new zero struct,
    which is then the handle of the nested call; otherwise the handle is
    the address of the field. *)
Definition decode_struct
    (Decode : SourceMapping -> value -> outcome value)
    (from : SourceMapping) (fp : FieldPart) (f : field) : outcome value :=
  let isnil := is_nil_ptr (fvalue f) in
  let fv := allocated (fvalue f) in
  let structFrom := if IsEmbedded f then Some from else as_mapping (Value fp) in
  match structFrom with
  | None => Fail (EShape (Name fp)) fv
  | Some structFrom =>
      omap (fun h => if isnil then h
                     else match h with VRef x => x | _ => fv end)
           (Decode structFrom (struct_handle (fvalue f)))
  end.

(** The scalar branch. *)
Definition decode_scalar (fp : FieldPart) (f : field) : outcome value :=
  match resolved (Value fp) with
  | None => Done (fvalue f)
  | Some v =>
      let fv := allocated (fvalue f) in
      let slot := slot_type (TypeOf fv) in
      let v := if ConvertibleTo (TypeOf v) slot then Convert v slot else v in
      if bool_decide (TKind (TypeOf v) = TKind slot) then
        match Set_ slot v with
        | inr x => Done (assigned (fvalue f) x)
        | inl p => Panic p fv
        end
      else Fail (EMismatch (fname f) (TypeOf v) slot) fv
  end.

(** One iteration of the loop over the fields: the state of the field
    when the iteration ends. *)
Definition decode_field
    (Decode : SourceMapping -> value -> outcome value)
    (decoder : Decoder) (from : SourceMapping) (f : field) : outcome value :=
  match fst (pipeline decoder from f) with
  | PErr e => Fail (EStep e) (fvalue f)
  | PPanic p => Panic (FUser p) (fvalue f)
  | POk fp =>
      if Skip fp then Done (fvalue f)
      else if is_struct_field (TypeOf (fvalue f))
           then decode_struct Decode from fp f
           else decode_scalar fp f
  end.

(** The loop over [s.Fields()], on the fields of the struct. *)
Fixpoint decode_fields
    (Decode : SourceMapping -> value -> outcome value)
    (decoder : Decoder) (from : SourceMapping)
    (idxs : list nat) (fs : list field) : outcome (list field) :=
  match idxs with
  | [] => Done fs
  | i :: rest =>
      match fs !! i with
      | None => decode_fields Decode decoder from rest fs
      | Some f =>
          match decode_field Decode decoder from f with
          | Done v =>
              decode_fields Decode decoder from rest (<[i := with_value f v]> fs)
          | Fail e v => Fail e (<[i := with_value f v]> fs)
          | Panic p v => Panic p (<[i := with_value f v]> fs)
          | Diverge => Diverge
          end
      end
  end.

(** The body of [Decode], without its deferred function; [Decode] is
    what the body calls on a nested record. *)
Definition Decode_body
    (Decode : SourceMapping -> value -> outcome value)
    (decoder : Decoder) (from : SourceMapping) (to : value) : outcome value :=
  match NewStruct to with
  | inl e => Fail e to
  | inr fs =>
      omap (with_fields to) (decode_fields Decode decoder from (Fields to fs) fs)
  end.

(** [Decode], bounded: every call, nested or not, runs the body under
    the deferred function. *)
Fixpoint Decode_fuel (n : nat) (decoder : Decoder) (from : SourceMapping)
    (to : value) : outcome value :=
  match n with
  | O => Diverge
  | S n' => recover (Decode_body (Decode_fuel n' decoder) decoder from to)
  end.

(** [Decoder.Decode]: the nesting of the target bounds the recursion. *)
Definition Decode (decoder : Decoder) (from : SourceMapping) (to : value)
    : outcome value :=
  Decode_fuel (S (depth to)) decoder from to.

End Engine.

(** ** The decoder as an object, and steps that carry state

    A [MutationFunc] is a Go closure: besides the descriptor it can read
    and write the variables it captured.  Here the steps work on a state
    [W] of their own, the decoder is an object of the memory, and a call
    of [Decode] leaves a memory behind, so that what a call carries over
    to the next one is visible. *)

Section World.
Context `{R : Reflect} {W : Type}.

Definition StatefulFunc : Type := FieldPart -> W -> mresult * W.

(** The memory a call reaches besides its arguments: the [mutations] of
    the decoder, and what the steps captured. *)
Record World : Type := { registered : list StatefulFunc; captured : W }.

Definition with_captured (wd : World) (c : W) : World :=
  {| registered := registered wd; captured := c |}.

Definition AddMutation_w (wd : World) (mutation : StatefulFunc) : World :=
  {| registered := registered wd ++ [mutation]; captured := captured wd |}.

Fixpoint run_mutations_w (from : SourceMapping) (fieldName : string) (i : nat)
    (ms : list StatefulFunc) (fp : FieldPart) (c : W) : presult * W :=
  match ms with
  | [] => (POk fp, c)
  | mutation :: rest =>
      let '(r, c) := mutation fp c in
      match r with
      | MErr e => (PErr e, c)
      | MPanic p => (PPanic p, c)
      | MOk fp =>
          if Nat.eqb i 0 then
            let fp := if bool_decide (Name fp = "")
                      then set_Name fp fieldName else fp in
            let fp' := match from !! Name fp with
                       | Some v => set_Value fp v
                       | None => fp
                       end in
            run_mutations_w from fieldName (S i) rest fp' c
          else run_mutations_w from fieldName (S i) rest fp c
      end
  end.

Definition decode_struct_w
    (Decode : SourceMapping -> value -> World -> outcome value * World)
    (from : SourceMapping) (fp : FieldPart) (f : field) (wd : World)
    : outcome value * World :=
  let isnil := is_nil_ptr (fvalue f) in
  let fv := allocated (fvalue f) in
  let structFrom := if IsEmbedded f then Some from else as_mapping (Value fp) in
  match structFrom with
  | None => (Fail (EShape (Name fp)) fv, wd)
  | Some structFrom =>
      let '(o, wd) := Decode structFrom (struct_handle (fvalue f)) wd in
      (omap (fun h => if isnil then h
                      else match h with VRef x => x | _ => fv end) o, wd)
  end.

Definition decode_field_w
    (Decode : SourceMapping -> value -> World -> outcome value * World)
    (from : SourceMapping) (f : field) (wd : World) : outcome value * World :=
  let '(r, c) := run_mutations_w from (fname f) 0 (registered wd) (fresh f)
                   (captured wd) in
  let wd := with_captured wd c in
  match r with
  | PErr e => (Fail (EStep e) (fvalue f), wd)
  | PPanic p => (Panic (FUser p) (fvalue f), wd)
  | POk fp =>
      if Skip fp then (Done (fvalue f), wd)
      else if is_struct_field (TypeOf (fvalue f))
           then decode_struct_w Decode from fp f wd
           else (decode_scalar fp f, wd)
  end.

Fixpoint decode_fields_w
    (Decode : SourceMapping -> value -> World -> outcome value * World)
    (from : SourceMapping) (idxs : list nat) (fs : list field) (wd : World)
    : outcome (list field) * World :=
  match idxs with
  | [] => (Done fs, wd)
  | i :: rest =>
      match fs !! i with
      | None => decode_fields_w Decode from rest fs wd
      | Some f =>
          let '(o, wd) := decode_field_w Decode from f wd in
          match o with
          | Done v => decode_fields_w Decode from rest (<[i := with_value f v]> fs) wd
          | Fail e v => (Fail e (<[i := with_value f v]> fs), wd)
          | Panic p v => (Panic p (<[i := with_value f v]> fs), wd)
          | Diverge => (Diverge, wd)
          end
      end
  end.

Definition Decode_body_w
    (Decode : SourceMapping -> value -> World -> outcome value * World)
    (from : SourceMapping) (to : value) (wd : World) : outcome value * World :=
  match NewStruct to with
  | inl e => (Fail e to, wd)
  | inr fs =>
      let '(o, wd) := decode_fields_w Decode from (Fields to fs) fs wd in
      (omap (with_fields to) o, wd)
  end.

Fixpoint Decode_fuel_w (n : nat) (from : SourceMapping) (to : value)
    (wd : World) : outcome value * World :=
  match n with
  | O => (Diverge, wd)
  | S n' =>
      let '(o, wd) := Decode_body_w (Decode_fuel_w n') from to wd in
      (recover o, wd)
  end.

(** [decoder.Decode(from, to)] in a memory. *)
Definition Decode_w (from : SourceMapping) (to : value) (wd : World)
    : outcome value * World :=
  Decode_fuel_w (S (depth to)) from to wd.

(** A step that leaves what it captured as it was. *)
Definition read_only (m : StatefulFunc) : Prop :=
  forall fp c, snd (m fp c) = c.

(** The pipeline of a memory, each step run on what is captured now. *)
Definition frozen (wd : World) : Decoder :=
  {| mutations := (fun m fp => fst (m fp (captured wd))) <$> registered wd |}.

(** A session of calls on one decoder. *)
Inductive call :=
| CallAddMutation (mutation : StatefulFunc)
| CallDecode (from : SourceMapping) (to : value).

Definition step (wd : World) (c : call) : option (outcome value) * World :=
  match c with
  | CallAddMutation m => (None, AddMutation_w wd m)
  | CallDecode from to =>
      let '(o, wd) := Decode_w from to wd in (Some o, wd)
  end.

Fixpoint run (wd : World) (cs : list call)
    : list (option (outcome value)) * World :=
  match cs with
  | [] => ([], wd)
  | c :: rest =>
      let '(r, wd) := step wd c in
      let '(rs, wd) := run wd rest in
      (r :: rs, wd)
  end.

Definition is_decode (c : call) : bool :=
  match c with CallDecode _ _ => true | _ => false end.

End World.
Arguments StatefulFunc W : clear implicits.
Arguments World W : clear implicits.
Arguments call W : clear implicits.

(** A step that lets the first descriptor pass and refuses the later
    ones: it counts its calls. *)
Definition once : StatefulFunc nat :=
  fun fp n => (if Nat.eqb n 0 then MOk fp else MErr "again", S n).

(** A step that reads what it captured and leaves it. *)
Definition stamp : StatefulFunc string :=
  fun fp c => (MOk (set_Name fp c), c).

(** ** Observations on outcomes and targets *)

(** The state a terminated piece of code leaves. *)
Definition state_of {A : Type} (o : outcome A) : option A :=
  match o with
  | Done a | Fail _ a | Panic _ a => Some a
  | Diverge => None
  end.

Definition returns {A : Type} (o : outcome A) : Prop :=
  match o with
  | Done _ | Fail _ _ => True
  | _ => False
  end.

(** The visited fields at the positions [pre], those before the field
    under study, decode without error: the loop reaches that field. *)
Definition reached `{Reflect} (decoder : Decoder) (from : SourceMapping)
    (fs : list field) (pre : list nat) : Prop :=
  forall j g, j ∈ pre -> fs !! j = Some g ->
    exists v, decode_field (Decode decoder) decoder from g = Done v.

(** Dereferencing a value [n] times. *)
Fixpoint deref (n : nat) (v : value) : option value :=
  match n with
  | O => Some v
  | S n' =>
      match v with
      | VRef x => deref n' x
      | _ => None
      end
  end.

(** [n] freshly allocated cells, one inside the other, around [v]. *)
Fixpoint refs (n : nat) (v : value) : value :=
  match n with
  | O => v
  | S n' => VRef (refs n' v)
  end.

(** The type with [n] pointer layers around [t]. *)
Fixpoint ptrs (n : nat) (t : type) : type :=
  match n with
  | O => t
  | S n' => TPtr (ptrs n' t)
  end.

(** A resolved input that the scalar branch skips: nil, or a nil
    pointer. *)
Definition invalid_input (v : dyn) : bool :=
  match v with
  | None | Some (VNil _) => true
  | _ => false
  end.

(** A step that leaves the descriptor as it is (the naming step
    [name.Noop] of the tests). *)
Definition Noop : MutationFunc := fun fp => MOk fp.

(** ** Decoders, records and mappings of the scenarios *)

(** The decoder of the tests that name fields by their identifier. *)
Definition noop_decoder : Decoder := AddMutation NewDecoder Noop.

Definition SubRecord : type := TStruct [MkTField "Address" "" false TString].

Definition Address_field (s : string) : field :=
  MkField "Address" "" false (VString s).

(** [struct { Name string; MyAddress SubRecord }], Name preset. *)
Definition person : value :=
  VRef (VStruct [MkField "Name" "" false (VString "preset");
                 MkField "MyAddress" "" false (VStruct [Address_field ""])]).

(** [struct { Name string; MyAddress *SubRecord }], the pointer nil. *)
Definition person_ptr : value :=
  VRef (VStruct [MkField "Name" "" false (VString "");
                 MkField "MyAddress" "" false (VNil SubRecord)]).

(** [struct { *SubRecord }], the embedded pointer nil. *)
Definition embedding : field := MkField "SubRecord" "" true (VNil SubRecord).

Definition not_a_map : SourceMapping :=
  {[ "Name" := Some (VString "Ann");
     "MyAddress" := Some (VString "not-a-map") ]}.

Definition street : SourceMapping := {[ "Address" := Some (VString "Street A") ]}.

(** [struct { Age int }] and a mapping giving Age as an [int8]. *)
Definition aged : value := VRef (VStruct [MkField "Age" "" false (VInt Int 0)]).
Definition age8 : SourceMapping := {[ "Age" := Some (VInt Int8 20) ]}.

(** [struct { Numbers []string }] and a mapping giving an [[]int]. *)
Definition numbers : value :=
  VRef (VStruct [MkField "Numbers" "" false (VSlice TString [])]).
Definition ints : SourceMapping :=
  {[ "Numbers" := Some (VSlice (TInt Int) [VInt Int 1]) ]}.

(** [struct { B struct { Numbers []string } }], the same one level down. *)
Definition nested_numbers : value :=
  VRef (VStruct [MkField "B" "" false
                   (VStruct [MkField "Numbers" "" false (VSlice TString [])])]).
Definition nested_ints : SourceMapping := {[ "B" := Some (VMapping ints) ]}.

(** [struct { A ***string }] and the mapping of A to a string. *)
Definition deep : value :=
  VRef (VStruct [MkField "A" "" false (VNil (TPtr (TPtr TString)))]).
Definition letter : SourceMapping := {[ "A" := Some (VString "A") ]}.

(** ** Further notions *)

(** The number of pointer layers of a type. *)
Fixpoint plevel (t : type) : nat :=
  match t with
  | TPtr e => S (plevel e)
  | _ => O
  end.

Definition set_Skip (fp : FieldPart) (b : bool) : FieldPart :=
  {| Name := Name fp; Value := Value fp; Type_ := Type_ fp; Tag := Tag fp;
     Skip := b |}.

(** Steps that refuse, crash or skip the fields of a given name, the
    others passing unchanged. *)
Definition Refuse (name e : string) : MutationFunc :=
  fun fp => if bool_decide (Name fp = name) then MErr e else MOk fp.
Definition Crash (name p : string) : MutationFunc :=
  fun fp => if bool_decide (Name fp = name) then MPanic p else MOk fp.
Definition Omit (name : string) : MutationFunc :=
  fun fp => if bool_decide (Name fp = name) then MOk (set_Skip fp true)
            else MOk fp.

(** What reflect guarantees of a conversion and of assignability, on
    the types of the fragment: a converted value has the type asked for,
    and a type is assignable only to itself and to [interface{}]. *)
Definition reflect_lawful `{Reflect} : Prop :=
  (forall v t, ConvertibleTo (TypeOf v) t = true -> TypeOf (Convert v t) = t)
  /\ (forall s t, AssignableTo s t = true -> s = t \/ t = TInterface).

(** The declared shape of the fields of a struct. *)
Definition ftypes (fs : list field) : list tfield :=
  (fun f => MkTField (fname f) (ftag f) (fanon f) (TypeOf (fvalue f))) <$> fs.

(** [struct { Name string; unexported string; Age int; City string }],
    all preset. *)
Definition record_fields : list field :=
  [MkField "Name" "" false (VString "a");
   MkField "unexported" "" false (VString "kept");
   MkField "Age" "" false (VInt Int 20);
   MkField "City" "" false (VString "x")].
Definition record : value := VRef (VStruct record_fields).

(** A mapping whose Age is a string, and one whose Age is an [int8]. *)
Definition update : SourceMapping :=
  {[ "Name" := Some (VString "b");
     "unexported" := Some (VString "c");
     "Age" := Some (VString "old");
     "City" := Some (VString "y") ]}.
Definition update_ok : SourceMapping := <[ "Age" := Some (VInt Int8 30) ]> update.

(** Decoders that name fields by their identifier and then refuse,
    crash on or skip the field Age. *)
Definition refusing : Decoder := AddMutation noop_decoder (Refuse "Age" "required").
Definition crashing : Decoder := AddMutation noop_decoder (Crash "Age" "boom").
Definition omitting : Decoder := AddMutation noop_decoder (Omit "Age").

(** A decoder whose only step names every descriptor zzz, and one that
    refuses the field MyAddress. *)
Definition renaming : Decoder :=
  AddMutation NewDecoder (fun fp => MOk (set_Name fp "zzz")).
Definition refusing_address : Decoder :=
  AddMutation noop_decoder (Refuse "MyAddress" "required").

(** [struct { Age *int }], the pointer nil. *)
Definition pointer_age : value :=
  VRef (VStruct [MkField "Age" "" false (VNil (TInt Int))]).

(** A mapping giving MyAddress its own mapping, beside a top-level
    Address. *)
Definition addressed : SourceMapping :=
  {[ "Address" := Some (VString "Top");
     "MyAddress" := Some (VMapping street) ]}.

(** * Properties *)

(** ** Induction on types, through the fields of struct types *)

Section type_induction.
Variable P : type -> Prop.
Hypothesis HBool : P TBool.
Hypothesis HInt : forall k, P (TInt k).
Hypothesis HString : P TString.
Hypothesis HPtr : forall e, P e -> P (TPtr e).
Hypothesis HSlice : forall e, P e -> P (TSlice e).
Hypothesis HMapping : P TMapping.
Hypothesis HInterface : P TInterface.
Hypothesis HStruct : forall fs, Forall (fun f => P (tftype f)) fs -> P (TStruct fs).

Fixpoint type_nested_ind (t : type) : P t :=
  match t with
  | TBool => HBool
  | TInt k => HInt k
  | TString => HString
  | TPtr e => HPtr e (type_nested_ind e)
  | TSlice e => HSlice e (type_nested_ind e)
  | TMapping => HMapping
  | TInterface => HInterface
  | TStruct fs =>
      HStruct fs
        ((fix go (l : list tfield) : Forall (fun f => P (tftype f)) l :=
            match l with
            | [] => List.Forall_nil _
            | f :: r =>
                @List.Forall_cons _ (fun f => P (tftype f)) f r
                  (match f return P (tftype f) with
                   | MkTField _ _ _ x => type_nested_ind x
                   end) (go r)
            end) fs)
  end.
End type_induction.

Lemma depth_Zero (t : type) : depth (Zero t) = tdepth t.
Proof.
  induction t using type_nested_ind; simpl; try reflexivity.
  f_equal. induction H as [|[n tg a x] r Hx _ IH]; simpl in *.
  - reflexivity.
  - now rewrite Hx, IH.
Qed.

Lemma depth_field (fs : list field) (i : nat) (f : field) :
  fs !! i = Some f -> (depth (fvalue f) < depth (VStruct fs))%nat.
Proof.
  simpl. revert i. induction fs as [|[n tg a x] r IH]; intros i Hi.
  - discriminate.
  - destruct i as [|i]; simpl in Hi.
    + injection Hi as <-. simpl. lia.
    + specialize (IH _ Hi). simpl. lia.
Qed.

Lemma NewStruct_inv (s : value) (fs : list field) :
  NewStruct s = inr fs -> internal.Value_valid s false = Some (VStruct fs).
Proof.
  unfold NewStruct. simpl.
  destruct (internal.Value_valid s false) as [[]|]; try discriminate.
  now intros [= ->].
Qed.

Lemma Value_valid_depth (s : value) (fs : list field) :
  internal.Value_valid s false = Some (VStruct fs) ->
  depth s = depth (VStruct fs).
Proof.
  induction s; simpl; try discriminate; auto.
  now intros [= ->].
Qed.

Lemma NewStruct_depth (s : value) (fs : list field) (i : nat) (f : field) :
  NewStruct s = inr fs -> fs !! i = Some f ->
  (depth (fvalue f) < depth s)%nat.
Proof.
  intros Hs Hi. rewrite (Value_valid_depth _ _ (NewStruct_inv _ _ Hs)).
  eapply depth_field; eauto.
Qed.

Lemma NewStruct_with_fields (s : value) (fs gs : list field) :
  NewStruct s = inr fs -> NewStruct (with_fields s gs) = inr gs.
Proof.
  intros Hs. apply NewStruct_inv in Hs. unfold NewStruct. simpl.
  enough (internal.Value_valid (with_fields s gs) false = Some (VStruct gs)) as ->
    by reflexivity.
  induction s; simpl in *; try discriminate; auto.
Qed.

Lemma Fields_NoDup `{Reflect} (s : value) (fs : list field) :
  NoDup (Fields s fs).
Proof.
  unfold Fields. destruct (addressable s); [|constructor].
  apply NoDup_filter, NoDup_seq.
Qed.

Lemma Fields_exported `{Reflect} (s : value) (fs : list field) (i : nat) :
  i ∈ Fields s fs ->
  addressable s = true
  /\ exists f, fs !! i = Some f /\ IsExported (fname f) = true.
Proof.
  unfold Fields. destruct (addressable s); [|now intros ?%elem_of_nil].
  rewrite list_elem_of_filter. unfold visible. intros [Hf _].
  destruct (fs !! i) as [f|]; [|discriminate]. eauto.
Qed.

Lemma Fields_elem `{Reflect} (s : value) (fs : list field) (i : nat)
    (f : field) :
  addressable s = true -> fs !! i = Some f -> IsExported (fname f) = true ->
  i ∈ Fields s fs.
Proof.
  intros Ha Hi He. unfold Fields. rewrite Ha.
  rewrite list_elem_of_filter. unfold visible. rewrite Hi. split; [exact He|].
  apply elem_of_seq. apply lookup_lt_Some in Hi. lia.
Qed.

(** ** The recursion of [Decode] *)

Section EngineFacts.
Context `{R : Reflect}.

Lemma nil_handle_depth (v : value) :
  is_nil_ptr v = true -> depth (New (TElem (TypeOf v))) = depth v.
Proof.
  unfold is_nil_ptr. destruct v; simpl; intros H; try discriminate;
    try (apply andb_true_iff in H as [H1 H2];
         first [apply bool_decide_eq_true_1 in H1; discriminate | discriminate]).
  apply depth_Zero.
Qed.

Lemma struct_handle_depth (v : value) :
  (depth (struct_handle v) <= depth v)%nat.
Proof.
  unfold struct_handle. destruct (is_nil_ptr v) eqn:Hnil.
  - now rewrite nil_handle_depth.
  - reflexivity.
Qed.

Lemma decode_struct_ext rec1 rec2 from fp f :
  (forall from' h, (depth h <= depth (fvalue f))%nat ->
                   rec1 from' h = rec2 from' h) ->
  decode_struct rec1 from fp f = decode_struct rec2 from fp f.
Proof.
  intros Hrec. unfold decode_struct.
  destruct (if IsEmbedded f then Some from else as_mapping (Value fp));
    [|reflexivity].
  rewrite Hrec; [reflexivity|]. apply struct_handle_depth.
Qed.

Lemma decode_field_ext rec1 rec2 decoder from f :
  (forall from' h, (depth h <= depth (fvalue f))%nat ->
                   rec1 from' h = rec2 from' h) ->
  decode_field rec1 decoder from f = decode_field rec2 decoder from f.
Proof.
  intros Hrec. unfold decode_field.
  destruct (fst (pipeline decoder from f)); try reflexivity.
  destruct (Skip fp); [reflexivity|].
  destruct (is_struct_field _); [|reflexivity].
  now apply decode_struct_ext.
Qed.

Lemma decode_fields_ext rec1 rec2 decoder from idxs fs :
  NoDup idxs ->
  (forall i f, i ∈ idxs -> fs !! i = Some f ->
     decode_field rec1 decoder from f = decode_field rec2 decoder from f) ->
  decode_fields rec1 decoder from idxs fs
  = decode_fields rec2 decoder from idxs fs.
Proof.
  intros Hnd. revert fs.
  induction Hnd as [|i idxs Hi Hnd IH]; intros fs Hrec; simpl; [reflexivity|].
  destruct (fs !! i) as [f|] eqn:Hf.
  - rewrite <- (Hrec i f) by (first [apply list_elem_of_here | assumption]).
    destruct (decode_field rec1 decoder from f); try reflexivity.
    apply IH. intros j g Hj Hg.
    apply (Hrec j g); [now apply list_elem_of_further|].
    rewrite list_lookup_insert_ne in Hg; [assumption|].
    intros ->. contradiction.
  - apply IH. intros j g Hj Hg.
    apply (Hrec j g); [now apply list_elem_of_further|assumption].
Qed.

Lemma Decode_body_ext rec1 rec2 decoder from to :
  (forall from' h, (depth h < depth to)%nat -> rec1 from' h = rec2 from' h) ->
  Decode_body rec1 decoder from to = Decode_body rec2 decoder from to.
Proof.
  intros Hrec. unfold Decode_body.
  destruct (NewStruct to) as [e|fs] eqn:Hs; [reflexivity|].
  f_equal. apply decode_fields_ext; [apply Fields_NoDup|].
  intros i f _ Hf. apply decode_field_ext. intros from' h Hh.
  apply Hrec. pose proof (NewStruct_depth _ _ _ _ Hs Hf). lia.
Qed.

Lemma Decode_fuel_stable decoder n m from to :
  (depth to < n)%nat -> (depth to < m)%nat ->
  Decode_fuel n decoder from to = Decode_fuel m decoder from to.
Proof.
  revert m from to. induction n as [|n IH]; intros m from to Hn Hm; [lia|].
  destruct m as [|m]; [lia|]. simpl. f_equal.
  apply Decode_body_ext. intros from' h Hh. apply IH; lia.
Qed.

(** [Decode] is its body under the deferred function, the nested calls
    being calls of [Decode] itself. *)
Lemma Decode_unfold decoder from to :
  Decode decoder from to
  = recover (Decode_body (Decode decoder) decoder from to).
Proof.
  unfold Decode at 1. simpl. f_equal. apply Decode_body_ext.
  intros from' h Hh. unfold Decode. apply Decode_fuel_stable; lia.
Qed.

(** ** The loop over the fields *)

Lemma state_of_omap {A B : Type} (g : A -> B) (o : outcome A) :
  state_of (omap g o) = g <$> state_of o.
Proof. now destruct o. Qed.

Lemma state_of_recover {A : Type} (o : outcome A) :
  state_of (recover o) = state_of o.
Proof. now destruct o. Qed.

(** A field outside the visited positions keeps its state. *)
Lemma decode_fields_frame rec decoder from idxs fs fs' i :
  i ∉ idxs ->
  state_of (decode_fields rec decoder from idxs fs) = Some fs' ->
  fs' !! i = fs !! i.
Proof.
  revert fs. induction idxs as [|j idxs IH]; intros fs Hi Hst; simpl in Hst.
  - now injection Hst as <-.
  - apply not_elem_of_cons in Hi as [Hij Hi].
    destruct (fs !! j) as [g|] eqn:Hg; [|now apply IH].
    destruct (decode_field rec decoder from g); simpl in Hst;
      try discriminate;
      try (injection Hst as <-; now apply list_lookup_insert_ne).
    rewrite (IH _ Hi Hst). now apply list_lookup_insert_ne.
Qed.

Lemma decode_fields_length rec decoder from idxs fs fs' :
  state_of (decode_fields rec decoder from idxs fs) = Some fs' ->
  length fs' = length fs.
Proof.
  revert fs. induction idxs as [|j idxs IH]; intros fs Hst; simpl in Hst.
  - now injection Hst as <-.
  - destruct (fs !! j) as [g|] eqn:Hg; [|now apply IH].
    destruct (decode_field rec decoder from g); simpl in Hst;
      try discriminate;
      try (injection Hst as <-; now rewrite length_insert).
    rewrite (IH _ Hst). now rewrite length_insert.
Qed.

(** A field ends in the state its own iteration leaves, or untouched when
    the loop stopped before reaching it. *)
Lemma decode_fields_cases rec decoder from idxs fs fs' i f :
  NoDup idxs -> fs !! i = Some f ->
  state_of (decode_fields rec decoder from idxs fs) = Some fs' ->
  fs' !! i = Some f
  \/ exists v, state_of (decode_field rec decoder from f) = Some v
             /\ fs' !! i = Some (with_value f v).
Proof.
  intros Hnd. revert fs.
  induction Hnd as [|j idxs Hj Hnd IH]; intros fs Hf Hst; simpl in Hst.
  - injection Hst as <-. now left.
  - destruct (decide (j = i)) as [->|Hji].
    + rewrite Hf in Hst. right.
      pose proof (lookup_lt_Some _ _ _ Hf) as Hlt.
      destruct (decode_field rec decoder from f) as [v|e v|p v|] eqn:Hd;
        simpl in Hst; try discriminate; exists v; (split; [reflexivity|]);
        try (injection Hst as <-; now apply list_lookup_insert_eq).
      rewrite (decode_fields_frame _ _ _ _ _ _ _ Hj Hst).
      now apply list_lookup_insert_eq.
    + destruct (fs !! j) as [g|] eqn:Hg; [|now apply (IH fs)].
      destruct (decode_field rec decoder from g); simpl in Hst;
        try discriminate;
        try (injection Hst as <-; left;
             now rewrite list_lookup_insert_ne).
      eapply IH; [|exact Hst]. now rewrite list_lookup_insert_ne.
Qed.

(** When the fields before position [i] decode without error, the loop
    reaches [i] with that field in its initial state. *)
Lemma decode_fields_reach rec decoder from pre i post fs f :
  NoDup (pre ++ i :: post) ->
  (forall j g, j ∈ pre -> fs !! j = Some g ->
     exists v, decode_field rec decoder from g = Done v) ->
  fs !! i = Some f ->
  exists fs1, fs1 !! i = Some f
    /\ decode_fields rec decoder from (pre ++ i :: post) fs
       = decode_fields rec decoder from (i :: post) fs1.
Proof.
  revert fs. induction pre as [|j pre IH]; intros fs Hnd Hpre Hf.
  - exists fs. now split.
  - simpl in Hnd. apply NoDup_cons in Hnd as [Hj Hnd].
    assert (j <> i) as Hji.
    { intros ->. apply Hj. apply elem_of_app. right. apply list_elem_of_here. }
    simpl. destruct (fs !! j) as [g|] eqn:Hg.
    + destruct (Hpre j g (list_elem_of_here _ _) Hg) as [v ->].
      apply IH; [assumption| |now rewrite list_lookup_insert_ne].
      intros k h Hk Hh. apply (Hpre k h); [now apply list_elem_of_further|].
      rewrite list_lookup_insert_ne in Hh; [assumption|].
      intros ->. apply Hj. apply elem_of_app. now left.
    + apply IH; [assumption| |assumption].
      intros k h Hk Hh. apply (Hpre k h); [now apply list_elem_of_further|].
      assumption.
Qed.

(** The state of a reached field after the loop, and how the loop ends
    when the field's iteration does not end normally. *)
Lemma decode_fields_at rec decoder from pre i post fs f :
  NoDup (pre ++ i :: post) ->
  (forall j g, j ∈ pre -> fs !! j = Some g ->
     exists v, decode_field rec decoder from g = Done v) ->
  fs !! i = Some f ->
  match decode_field rec decoder from f with
  | Done v =>
      forall fs', state_of (decode_fields rec decoder from (pre ++ i :: post) fs)
                  = Some fs' -> fs' !! i = Some (with_value f v)
  | Fail e v =>
      exists fs', decode_fields rec decoder from (pre ++ i :: post) fs = Fail e fs'
                  /\ fs' !! i = Some (with_value f v)
  | Panic p v =>
      exists fs', decode_fields rec decoder from (pre ++ i :: post) fs = Panic p fs'
                  /\ fs' !! i = Some (with_value f v)
  | Diverge => decode_fields rec decoder from (pre ++ i :: post) fs = Diverge
  end.
Proof.
  intros Hnd Hpre Hf.
  destruct (decode_fields_reach _ _ _ _ _ _ _ _ Hnd Hpre Hf) as (fs1 & Hf1 & ->).
  pose proof (lookup_lt_Some _ _ _ Hf1) as Hlt.
  assert (i ∉ post) as Hi.
  { apply NoDup_app in Hnd as (_ & _ & Hnd).
    now apply NoDup_cons in Hnd as [? _]. }
  simpl. rewrite Hf1.
  destruct (decode_field rec decoder from f) as [v|e v|p v|]; try reflexivity.
  - intros fs' Hst. rewrite (decode_fields_frame _ _ _ _ _ _ _ Hi Hst).
    now apply list_lookup_insert_eq.
  - eexists. split; [reflexivity|]. now apply list_lookup_insert_eq.
  - eexists. split; [reflexivity|]. now apply list_lookup_insert_eq.
Qed.

(** ** Termination *)

Lemma decode_fields_terminates rec decoder from idxs fs :
  NoDup idxs ->
  (forall i f, i ∈ idxs -> fs !! i = Some f ->
     decode_field rec decoder from f <> Diverge) ->
  decode_fields rec decoder from idxs fs <> Diverge.
Proof.
  intros Hnd. revert fs.
  induction Hnd as [|i idxs Hi Hnd IH]; intros fs Hrec; simpl; [discriminate|].
  destruct (fs !! i) as [f|] eqn:Hf.
  - pose proof (Hrec i f (list_elem_of_here _ _) Hf) as Hd.
    destruct (decode_field rec decoder from f); try discriminate;
      [|contradiction].
    apply IH. intros j g Hj Hg.
    apply (Hrec j g); [now apply list_elem_of_further|].
    rewrite list_lookup_insert_ne in Hg; [assumption|].
    intros ->. contradiction.
  - apply IH. intros j g Hj Hg.
    apply (Hrec j g); [now apply list_elem_of_further|assumption].
Qed.

Lemma decode_field_terminates rec decoder from f :
  (forall from' h, (depth h <= depth (fvalue f))%nat -> rec from' h <> Diverge) ->
  decode_field rec decoder from f <> Diverge.
Proof.
  intros Hrec. unfold decode_field.
  destruct (fst (pipeline decoder from f)); try discriminate.
  destruct (Skip fp); [discriminate|].
  destruct (is_struct_field _).
  - unfold decode_struct.
    destruct (if IsEmbedded f then Some from else as_mapping (Value fp)) as [sf|];
      [|discriminate].
    match goal with |- omap _ (rec sf ?h) <> _ =>
      assert (rec sf h <> Diverge) as Hh end.
    { apply Hrec, struct_handle_depth. }
    destruct (rec sf _); try discriminate. contradiction.
  - unfold decode_scalar.
    destruct (resolved (Value fp)); [|discriminate].
    destruct (bool_decide _); [|discriminate].
    destruct (Set_ _ _); discriminate.
Qed.

Lemma Decode_terminates decoder from to : Decode decoder from to <> Diverge.
Proof.
  remember (depth to) as n eqn:Hn. revert from to Hn.
  induction n as [n IH] using lt_wf_ind. intros from to ->.
  rewrite Decode_unfold. unfold Decode_body.
  destruct (NewStruct to) as [e|fs] eqn:Hs; [discriminate|].
  assert (decode_fields (Decode decoder) decoder from (Fields to fs) fs
          <> Diverge) as Hd.
  { apply decode_fields_terminates; [apply Fields_NoDup|].
    intros i f _ Hf. apply decode_field_terminates. intros from' h Hh.
    pose proof (NewStruct_depth _ _ _ _ Hs Hf).
    apply (IH (depth h)); [lia|reflexivity]. }
  destruct (decode_fields _ _ _ _ _); try discriminate. contradiction.
Qed.

(** Every call of [Decode] returns: normally, or with an error. *)
Lemma Decode_returns decoder from to : returns (Decode decoder from to).
Proof.
  pose proof (Decode_terminates decoder from to) as Ht.
  rewrite Decode_unfold in *.
  destruct (Decode_body _ _ _ _); simpl in *; auto.
Qed.

(** The state a call leaves is the target with its fields as the loop
    left them. *)
Lemma Decode_state decoder from to fs :
  NewStruct to = inr fs ->
  exists fs', state_of (decode_fields (Decode decoder) decoder from
                          (Fields to fs) fs) = Some fs'
    /\ state_of (Decode decoder from to) = Some (with_fields to fs')
    /\ NewStruct (with_fields to fs') = inr fs'.
Proof.
  intros Hs. pose proof (Decode_terminates decoder from to) as Ht.
  rewrite Decode_unfold in *. unfold Decode_body in *. rewrite Hs in *.
  rewrite state_of_recover, state_of_omap.
  destruct (decode_fields _ _ _ _ _) as [a|e a|p a|]; simpl in *;
    try contradiction; exists a; (split; [reflexivity|]);
    (split; [reflexivity|]); eapply NewStruct_with_fields; eauto.
Qed.

End EngineFacts.

(** ** One field within a call *)

Section Claims.
Context `{R : Reflect}.

(** How a call ends, and the state of field [i] after it, from the way
    the iteration of that field ends. *)
Lemma Decode_at decoder from to fs (pre : list nat) i post f :
  NewStruct to = inr fs -> Fields to fs = (pre ++ i :: post)%list ->
  reached decoder from fs pre -> fs !! i = Some f ->
  match decode_field (Decode decoder) decoder from f with
  | Done v =>
      exists to' fs', state_of (Decode decoder from to) = Some to'
        /\ NewStruct to' = inr fs' /\ fs' !! i = Some (with_value f v)
  | Fail e v =>
      exists to' fs', Decode decoder from to = Fail e to'
        /\ Decode_body (Decode decoder) decoder from to = Fail e to'
        /\ NewStruct to' = inr fs' /\ fs' !! i = Some (with_value f v)
  | Panic p v =>
      exists to' fs', Decode decoder from to = Fail (EFault p) to'
        /\ Decode_body (Decode decoder) decoder from to = Panic p to'
        /\ NewStruct to' = inr fs' /\ fs' !! i = Some (with_value f v)
  | Diverge => False
  end.
Proof.
  intros Hs Hfields Hpre Hf.
  pose proof (Fields_NoDup to fs) as Hnd. rewrite Hfields in Hnd.
  pose proof (decode_fields_at (Decode decoder) decoder from pre i post fs f
                Hnd Hpre Hf) as Hat.
  destruct (Decode_state decoder from to fs Hs) as (fs' & Hst & Hto & Hs').
  rewrite Decode_unfold. unfold Decode_body. rewrite Hs.
  rewrite Hfields in *.
  destruct (decode_field (Decode decoder) decoder from f) as [v|e v|p v|].
  - exists (with_fields to fs'), fs'. rewrite Decode_unfold in Hto.
    unfold Decode_body in Hto. rewrite Hs, Hfields in Hto. auto.
  - destruct Hat as (fs1 & -> & Hi). simpl.
    exists (with_fields to fs1), fs1.
    repeat split; try assumption. eapply NewStruct_with_fields; eauto.
  - destruct Hat as (fs1 & -> & Hi). simpl.
    exists (with_fields to fs1), fs1.
    repeat split; try assumption. eapply NewStruct_with_fields; eauto.
  - rewrite Hat in Hst. discriminate.
Qed.

Lemma with_value_fvalue (f : field) : with_value f (fvalue f) = f.
Proof. now destruct f. Qed.

(** ** The pipeline of one field *)

(** After the first step the loop reads nothing from the mapping. *)
Lemma run_mutations_later from from' fieldName i ms fp lookups :
  i <> O ->
  run_mutations from fieldName i ms fp lookups
  = run_mutations from' fieldName i ms fp lookups
  /\ snd (run_mutations from fieldName i ms fp lookups) = lookups.
Proof.
  revert i fp. induction ms as [|m ms IH]; intros i fp Hi; simpl; [auto|].
  destruct (m fp) as [fp'| |]; auto.
  destruct i as [|i]; [contradiction|]. simpl. now apply IH.
Qed.

(** The record of lookups does not influence what the loop computes. *)
Lemma run_mutations_result from fieldName i ms fp lookups lookups' :
  fst (run_mutations from fieldName i ms fp lookups)
  = fst (run_mutations from fieldName i ms fp lookups').
Proof.
  revert i fp lookups lookups'.
  induction ms as [|m ms IH]; intros i fp lookups lookups'; simpl;
    [reflexivity|].
  destruct (m fp); try reflexivity.
  destruct (i =? 0)%nat; apply IH.
Qed.


(** ** The scalar branch *)

Lemma resolved_invalid (v : dyn) :
  invalid_input v = true -> resolved v = None.
Proof. destruct v as [[]|]; simpl; try discriminate; reflexivity. Qed.

(** A scalar field whose resolved value is invalid is left as it is. *)
Lemma scalar_invalid_untouched decoder from to fs i f fp :
  NewStruct to = inr fs -> fs !! i = Some f ->
  is_struct_field (TypeOf (fvalue f)) = false ->
  fst (pipeline decoder from f) = POk fp ->
  invalid_input (Value fp) = true ->
  decode_field (Decode decoder) decoder from f = Done (fvalue f)
  /\ exists to' fs', state_of (Decode decoder from to) = Some to'
       /\ NewStruct to' = inr fs' /\ fs' !! i = Some f.
Proof.
  intros Hs Hf Hscalar Hfp Hinv.
  assert (decode_field (Decode decoder) decoder from f = Done (fvalue f))
    as Hd.
  { unfold decode_field. rewrite Hfp, Hscalar.
    destruct (Skip fp); [reflexivity|].
    unfold decode_scalar. now rewrite resolved_invalid. }
  split; [exact Hd|].
  destruct (Decode_state decoder from to fs Hs) as (fs' & Hst & Hto & Hs').
  exists (with_fields to fs'), fs'. repeat split; try assumption.
  destruct (decode_fields_cases _ _ _ _ _ _ _ _ (Fields_NoDup to fs) Hf Hst)
    as [Hu|(v & Hv & Hu)]; [exact Hu|].
  rewrite Hd in Hv. injection Hv as <-. now rewrite with_value_fvalue in Hu.
Qed.

(** C2: when the value resolved for a scalar field is absent or invalid
    (nil, or a nil pointer, as when the key is missing), the iteration of
    that field ends normally with the field as it was: nothing is zeroed,
    no pointer is allocated, no error is returned for it; and the field
    has its initial state after the call, however the call ends. *)
Theorem C2_invalid_input_leaves_field decoder from to fs i f fp :
  NewStruct to = inr fs -> fs !! i = Some f ->
  is_struct_field (TypeOf (fvalue f)) = false ->
  fst (pipeline decoder from f) = POk fp ->
  invalid_input (Value fp) = true ->
  decode_field (Decode decoder) decoder from f = Done (fvalue f)
  /\ exists to' fs', state_of (Decode decoder from to) = Some to'
       /\ NewStruct to' = inr fs' /\ fs' !! i = Some f.
Proof. apply scalar_invalid_untouched. Qed.

(** ** The struct branch *)

(** C5, as the code has it: a struct or pointer-to-struct field that is
    not embedded and not skipped, and whose descriptor value is not a
    [map[string]interface{}], makes the call fail, once the loop reaches
    it, with the shape error; the error carries the Name of the
    descriptor as the pipeline left it, not the identifier of the field:
    the empty string when the pipeline is empty, and, when the pipeline
    is one step, the identifier of the field if the step left Name empty
    and the name the step chose otherwise. *)
Theorem C5_shape_error_carries_descriptor_name
    decoder from to fs (pre : list nat) i post f fp :
  NewStruct to = inr fs -> Fields to fs = (pre ++ i :: post)%list ->
  reached decoder from fs pre -> fs !! i = Some f ->
  is_struct_field (TypeOf (fvalue f)) = true -> IsEmbedded f = false ->
  fst (pipeline decoder from f) = POk fp -> Skip fp = false ->
  as_mapping (Value fp) = None ->
  (exists to', Decode decoder from to = Fail (EShape (Name fp)) to')
  /\ (mutations decoder = [] -> Name fp = "")
  /\ (forall first fp1,
        mutations decoder = [first] -> first (fresh f) = MOk fp1 ->
        Name fp = if bool_decide (Name fp1 = "") then fname f else Name fp1).
Proof.
  intros Hs Hfields Hpre Hf Hstruct Hemb Hfp Hskip Hmap. split; [|split].
  - pose proof (Decode_at decoder from to fs pre i post f Hs Hfields Hpre Hf)
      as Hat.
    unfold decode_field in Hat. rewrite Hfp, Hskip, Hstruct in Hat.
    unfold decode_struct in Hat. rewrite Hemb, Hmap in Hat.
    destruct Hat as (to' & fs' & Hto & _). eauto.
  - intros Hnil. unfold pipeline in Hfp. rewrite Hnil in Hfp. simpl in Hfp.
    now injection Hfp as <-.
  - intros first fp1 Hone Hfirst. unfold pipeline in Hfp.
    rewrite Hone in Hfp. simpl in Hfp. rewrite Hfirst in Hfp. simpl in Hfp.
    injection Hfp as <-.
    destruct (bool_decide (Name fp1 = "")); simpl;
      match goal with |- context [from !! ?k] => destruct (from !! k) end;
      reflexivity.
Qed.

Lemma TypeOf_Zero (t : type) : TypeOf (Zero t) = t.
Proof.
  induction t using type_nested_ind; simpl; try reflexivity.
  f_equal. induction H as [|[n tg a x] r Hx _ IH]; simpl in *.
  - reflexivity.
  - now rewrite Hx, IH.
Qed.

Lemma is_nil_ptr_inv (v : value) :
  is_nil_ptr v = true -> exists t, v = VNil t.
Proof.
  unfold is_nil_ptr. destruct v; simpl; intros H; try discriminate;
    try (apply andb_true_iff in H as [H1 H2];
         first [apply bool_decide_eq_true_1 in H1; discriminate | discriminate]).
  eauto.
Qed.

Lemma TypeOf_allocated (v : value) : TypeOf (allocated v) = TypeOf v.
Proof.
  unfold allocated. destruct (is_nil_ptr v) eqn:Hnil; [|reflexivity].
  destruct (is_nil_ptr_inv _ Hnil) as [t ->]. simpl. now rewrite TypeOf_Zero.
Qed.

(** C6, what the code does: for a scalar or collection field with a valid
    resolved value, the slot being the field less one pointer layer: when
    the type of the value is convertible to the type of the slot, the
    converted value is assigned; when it is not and the kinds differ, the
    call fails with the mismatch error naming the field, the type of the
    value and the type of the slot; when it is not and the kinds
    coincide, the assignment faults and the call fails with the
    recovered fault, the field holding what it held (a nil pointer
    allocated). *)
Theorem C6_convert_then_assign_or_fail
    decoder from to fs (pre : list nat) i post f fp v :
  NewStruct to = inr fs -> Fields to fs = (pre ++ i :: post)%list ->
  reached decoder from fs pre -> fs !! i = Some f ->
  is_struct_field (TypeOf (fvalue f)) = false ->
  fst (pipeline decoder from f) = POk fp -> Skip fp = false ->
  resolved (Value fp) = Some v ->
  let slot := slot_type (TypeOf (fvalue f)) in
  (ConvertibleTo (TypeOf v) slot = true ->
   TypeOf (Convert v slot) = slot -> AssignableTo slot slot = true ->
   decode_field (Decode decoder) decoder from f
   = Done (assigned (fvalue f) (store slot (Convert v slot)))
   /\ exists to' fs', state_of (Decode decoder from to) = Some to'
        /\ NewStruct to' = inr fs'
        /\ fs' !! i = Some (with_value f (assigned (fvalue f)
                                            (store slot (Convert v slot)))))
  /\ (ConvertibleTo (TypeOf v) slot = false ->
      TKind (TypeOf v) <> TKind slot ->
      exists to', Decode decoder from to
                  = Fail (EMismatch (fname f) (TypeOf v) slot) to')
  /\ (ConvertibleTo (TypeOf v) slot = false ->
      TKind (TypeOf v) = TKind slot ->
      AssignableTo (TypeOf v) slot = false ->
      exists to' fs', Decode decoder from to
                      = Fail (EFault (FSet (TypeOf v) slot)) to'
        /\ NewStruct to' = inr fs'
        /\ fs' !! i = Some (with_value f (allocated (fvalue f)))).
Proof.
  intros Hs Hfields Hpre Hf Hscalar Hfp Hskip Hv slot.
  pose proof (Decode_at decoder from to fs pre i post f Hs Hfields Hpre Hf)
    as Hat.
  unfold decode_field in *. rewrite Hfp, Hskip, Hscalar in *.
  unfold decode_scalar in *. rewrite Hv in *.
  rewrite TypeOf_allocated in *. fold slot in Hat |- *.
  split; [|split].
  - intros Hconv Hty Hassign. rewrite Hconv in *.
    rewrite Hty in *. rewrite bool_decide_eq_true_2 in * by reflexivity.
    unfold Set_ in *. rewrite Hty, Hassign in *. auto.
  - intros Hconv Hkind. rewrite Hconv in Hat.
    rewrite bool_decide_eq_false_2 in Hat by assumption.
    destruct Hat as (to' & fs' & Hto & _). eauto.
  - intros Hconv Hkind Hassign. rewrite Hconv in Hat.
    rewrite bool_decide_eq_true_2 in Hat by assumption.
    unfold Set_ in Hat. rewrite Hassign in Hat.
    destruct Hat as (to' & fs' & Hto & _ & Hs' & Hi). eauto.
Qed.

(** ** The struct branch, continued *)

Lemma struct_kind_inv (t : type) :
  TKind t = KStruct -> exists tfs, t = TStruct tfs.
Proof. destruct t; try discriminate. eauto. Qed.

(** A call on a pointer to a struct leaves a pointer to a struct. *)
Lemma Decode_ref_state decoder from (fs : list field) :
  exists fs', state_of (Decode decoder from (VRef (VStruct fs)))
              = Some (VRef (VStruct fs')).
Proof.
  destruct (Decode_state decoder from (VRef (VStruct fs)) fs eq_refl)
    as (fs' & _ & Hst & _).
  eauto.
Qed.

(** C7: for an embedded struct or pointer-to-struct field that is not
    skipped, the nested call receives the very mapping of the parent
    call, whatever the descriptor's value is: the iteration of the field
    is the call of [Decode] with [from] on the field (on the new struct
    when the field was a nil pointer).  Hence a top-level key fills the
    field of that name in the embedded record: with the mapping
    {Address: Street A} the embedded record's Address becomes
    Street A. *)
Theorem C7_embedded_shares_mapping decoder from f fp :
  is_struct_field (TypeOf (fvalue f)) = true -> IsEmbedded f = true ->
  fst (pipeline decoder from f) = POk fp -> Skip fp = false ->
  decode_field (Decode decoder) decoder from f
  = match fvalue f with
    | VNil t => Decode decoder from (New t)
    | s => omap (fun h => match h with VRef x => x | _ => s end)
                (Decode decoder from (VRef s))
    end
  /\ Decode (R := frag_reflect) noop_decoder street
        (VRef (VStruct [MkField "SubRecord" "" true
                          (VStruct [Address_field ""])]))
     = Done (VRef (VStruct [MkField "SubRecord" "" true
                              (VStruct [Address_field "Street A"])])).
Proof.
  intros Hstruct Hemb Hfp Hskip. split; [|vm_compute; reflexivity].
  unfold decode_field. rewrite Hfp, Hskip, Hstruct.
  unfold decode_struct, struct_handle, allocated. rewrite Hemb.
  destruct (is_nil_ptr (fvalue f)) eqn:Hnil.
  - destruct (is_nil_ptr_inv _ Hnil) as [t ->]. simpl.
    now destruct (Decode decoder from (New t)).
  - destruct (fvalue f); try reflexivity. discriminate.
Qed.

(** C10, as the code has it: when the iteration of a nil
    pointer-to-struct field ends with an error other than that of a
    step, that is after the pipeline has run (the value is not a
    mapping, or the nested call fails), the call returns that error and
    the field is no longer nil: it points to the struct allocated for
    it, which is still the zero struct when the error is the shape
    error. *)
Theorem C10_failed_pointer_field_is_allocated
    decoder from to fs (pre : list nat) i post f fp t e v :
  NewStruct to = inr fs -> Fields to fs = (pre ++ i :: post)%list ->
  reached decoder from fs pre -> fs !! i = Some f ->
  fvalue f = VNil t -> TKind t = KStruct ->
  fst (pipeline decoder from f) = POk fp -> Skip fp = false ->
  decode_field (Decode decoder) decoder from f = Fail e v ->
  exists s to' fs',
    v = VRef s
    /\ Decode decoder from to = Fail e to'
    /\ NewStruct to' = inr fs'
    /\ fs' !! i = Some (with_value f (VRef s))
    /\ (IsEmbedded f = false -> as_mapping (Value fp) = None ->
        e = EShape (Name fp) /\ s = Zero t).
Proof.
  intros Hs Hfields Hpre Hf Hnil Hkind Hfp Hskip Hfail.
  pose proof (Decode_at decoder from to fs pre i post f Hs Hfields Hpre Hf)
    as Hat.
  rewrite Hfail in Hat. destruct Hat as (to' & fs' & Hto & _ & Hs' & Hi).
  destruct (struct_kind_inv _ Hkind) as [tfs ->].
  unfold decode_field in Hfail. rewrite Hfp, Hskip, Hnil in Hfail.
  simpl in Hfail. unfold decode_struct in Hfail. rewrite Hnil in Hfail.
  change (is_nil_ptr (VNil (TStruct tfs))) with true in Hfail.
  change (allocated (VNil (TStruct tfs))) with (New (TStruct tfs)) in Hfail.
  change (struct_handle (VNil (TStruct tfs))) with (New (TStruct tfs)) in Hfail.
  destruct (if IsEmbedded f then Some from else as_mapping (Value fp))
    as [sub|] eqn:Hsub.
  - unfold New in Hfail. simpl Zero in Hfail.
    match type of Hfail with context [VRef (VStruct ?gs)] =>
      destruct (Decode_ref_state decoder sub gs) as [gs' Hst] end.
    destruct (Decode decoder sub _) as [a|e' a|p a|]; simpl in Hfail;
      try discriminate.
    injection Hfail as He Ha. subst e' a. simpl in Hst.
    injection Hst as Hv. subst v.
    exists (VStruct gs'), to', fs'.
    do 4 (split; [first [reflexivity | assumption]|]).
    intros Hemb Hmap. rewrite Hemb, Hmap in Hsub. discriminate.
  - injection Hfail as He Hv. subst e v.
    exists (Zero (TStruct tfs)), to', fs'. repeat split; assumption.
Qed.

(** ** Faults *)

(** C3, as the code has it: the deferred function belongs to [Decode]
    itself, so every call, nested ones included, turns a fault of its own
    body into the returned error, and every call returns.  A fault in
    the body of a nested call is returned by that nested call as an
    error; the body of the outer call then ends with this same error,
    without any fault reaching the outer deferred function, and the outer
    call returns it unchanged. *)
Theorem C3_every_call_recovers decoder from to :
  Decode decoder from to
  = recover (Decode_body (Decode decoder) decoder from to)
  /\ returns (Decode decoder from to)
  /\ forall fs (pre : list nat) i post f fp sub p s,
       NewStruct to = inr fs -> Fields to fs = (pre ++ i :: post)%list ->
       reached decoder from fs pre -> fs !! i = Some f ->
       is_struct_field (TypeOf (fvalue f)) = true ->
       fst (pipeline decoder from f) = POk fp -> Skip fp = false ->
       (if IsEmbedded f then Some from else as_mapping (Value fp)) = Some sub ->
       Decode_body (Decode decoder) decoder sub (struct_handle (fvalue f))
       = Panic p s ->
       Decode decoder sub (struct_handle (fvalue f)) = Fail (EFault p) s
       /\ exists to',
           Decode_body (Decode decoder) decoder from to = Fail (EFault p) to'
           /\ Decode decoder from to = Fail (EFault p) to'.
Proof.
  split; [apply Decode_unfold|]. split; [apply Decode_returns|].
  intros fs pre i post f fp sub p s Hs Hfields Hpre Hf Hstruct Hfp Hskip
    Hsub Hbody.
  assert (Decode decoder sub (struct_handle (fvalue f)) = Fail (EFault p) s)
    as Hnested by (now rewrite Decode_unfold, Hbody).
  split; [exact Hnested|].
  pose proof (Decode_at decoder from to fs pre i post f Hs Hfields Hpre Hf)
    as Hat.
  unfold decode_field in Hat. rewrite Hfp, Hskip, Hstruct in Hat.
  unfold decode_struct in Hat. rewrite Hsub, Hnested in Hat. simpl in Hat.
  destruct Hat as (to' & fs' & Hto & Hb & _). eauto.
Qed.

(** ** The empty pipeline *)

Lemma pipeline_empty from f : pipeline NewDecoder from f = (POk (fresh f), []).
Proof. reflexivity. Qed.

Lemma decode_field_empty_from rec from from' f :
  (forall a b h, rec a h = rec b h) ->
  decode_field rec NewDecoder from f = decode_field rec NewDecoder from' f.
Proof.
  intros Hrec. unfold decode_field. rewrite !pipeline_empty. simpl.
  destruct (is_struct_field _); [|reflexivity].
  unfold decode_struct. simpl. destruct (IsEmbedded f); [|reflexivity].
  now rewrite (Hrec from from').
Qed.

Lemma decode_fields_empty_from rec from from' idxs fs :
  (forall a b h, rec a h = rec b h) ->
  decode_fields rec NewDecoder from idxs fs
  = decode_fields rec NewDecoder from' idxs fs.
Proof.
  intros Hrec. revert fs. induction idxs as [|i idxs IH]; intros fs; simpl;
    [reflexivity|].
  destruct (fs !! i) as [f|]; [|apply IH].
  rewrite (decode_field_empty_from rec from from' f Hrec).
  destruct (decode_field rec NewDecoder from' f); try reflexivity. apply IH.
Qed.

Lemma Decode_fuel_empty_from n from from' to :
  Decode_fuel n NewDecoder from to = Decode_fuel n NewDecoder from' to.
Proof.
  revert from from' to. induction n as [|n IH]; intros from from' to;
    [reflexivity|].
  simpl. unfold Decode_body. destruct (NewStruct to); [reflexivity|].
  now rewrite (decode_fields_empty_from _ from from') by (intros; apply IH).
Qed.

Lemma Decode_fuel_no_panic n decoder from to p a :
  Decode_fuel n decoder from to <> Panic p a.
Proof.
  destruct n; simpl; [discriminate|].
  now destruct (Decode_body _ _ _ _).
Qed.

Lemma decode_fields_fail_inv rec decoder from idxs fs e fs' :
  decode_fields rec decoder from idxs fs = Fail e fs' ->
  exists f v, decode_field rec decoder from f = Fail e v.
Proof.
  revert fs. induction idxs as [|i idxs IH]; intros fs; simpl; [discriminate|].
  destruct (fs !! i) as [f|]; [|apply IH].
  destruct (decode_field rec decoder from f) as [v|e' v|p v|] eqn:Hd;
    try discriminate; [apply IH|].
  intros [= -> _]. eauto.
Qed.

Lemma decode_fields_panic_inv rec decoder from idxs fs p fs' :
  decode_fields rec decoder from idxs fs = Panic p fs' ->
  exists f v, decode_field rec decoder from f = Panic p v.
Proof.
  revert fs. induction idxs as [|i idxs IH]; intros fs; simpl; [discriminate|].
  destruct (fs !! i) as [f|]; [|apply IH].
  destruct (decode_field rec decoder from f) as [v|e' v|p' v|] eqn:Hd;
    try discriminate; [apply IH|].
  intros [= -> _]. eauto.
Qed.

Lemma decode_fields_done_inv rec decoder from idxs fs fs' i f :
  NoDup idxs ->
  decode_fields rec decoder from idxs fs = Done fs' ->
  i ∈ idxs -> fs !! i = Some f ->
  exists v, decode_field rec decoder from f = Done v.
Proof.
  intros Hnd. revert fs.
  induction Hnd as [|j idxs Hj Hnd IH]; intros fs Hdone Hi Hf.
  - now apply elem_of_nil in Hi.
  - simpl in Hdone. apply elem_of_cons in Hi as [->|Hi].
    + rewrite Hf in Hdone.
      destruct (decode_field rec decoder from f); try discriminate. eauto.
    + assert (j <> i) as Hji by (intros ->; contradiction).
      destruct (fs !! j) as [g|] eqn:Hg; [|now apply (IH fs)].
      destruct (decode_field rec decoder from g); try discriminate.
      eapply IH; [exact Hdone|assumption|].
      now rewrite list_lookup_insert_ne.
Qed.

(** The nested call of the struct branch is given a struct. *)
Lemma struct_handle_NewStruct (v : value) :
  is_struct_field (TypeOf v) = true ->
  exists gs, NewStruct (struct_handle v) = inr gs.
Proof.
  unfold is_struct_field, struct_handle, is_nil_ptr.
  destruct v as [| | |t|x| | | |gs]; simpl; try discriminate.
  - destruct t; simpl; try discriminate. intros _. unfold NewStruct. simpl. eauto.
  - destruct x; simpl; try discriminate. intros _. unfold NewStruct. simpl. eauto.
  - intros _. unfold NewStruct. simpl. eauto.
Qed.

Lemma empty_pipeline_error n from to e a :
  Decode_fuel n NewDecoder from to = Fail e a ->
  (exists fs, NewStruct to = inr fs) -> e = EShape "".
Proof.
  revert from to e a. induction n as [|n IH]; intros from to e a; simpl;
    [discriminate|].
  intros Hfail [fs Hs]. unfold Decode_body in Hfail. rewrite Hs in Hfail.
  assert (forall f e' v,
            decode_field (Decode_fuel n NewDecoder) NewDecoder from f
            = Fail e' v -> e' = EShape "") as Hfield.
  { intros f e' v. unfold decode_field. rewrite pipeline_empty. simpl.
    destruct (is_struct_field (TypeOf (fvalue f))) eqn:Hstruct; [|discriminate].
    unfold decode_struct. simpl. destruct (IsEmbedded f).
    - destruct (struct_handle_NewStruct _ Hstruct) as [gs Hgs].
      destruct (Decode_fuel n NewDecoder from (struct_handle (fvalue f)))
        as [x|e'' x|p x|] eqn:Hn; simpl; try discriminate.
      intros [= -> _]. eapply IH; eauto.
    - now intros [= <- _]. }
  assert (forall f p v,
            decode_field (Decode_fuel n NewDecoder) NewDecoder from f
            <> Panic p v) as Hnopanic.
  { intros f p v. unfold decode_field. rewrite pipeline_empty. simpl.
    destruct (is_struct_field (TypeOf (fvalue f))); [|discriminate].
    unfold decode_struct. simpl. destruct (IsEmbedded f); [|discriminate].
    pose proof (Decode_fuel_no_panic n NewDecoder from
                  (struct_handle (fvalue f))) as Hnp.
    destruct (Decode_fuel n NewDecoder from (struct_handle (fvalue f)))
      as [x|e'' x|p' x|]; simpl; try discriminate.
    intros _. now apply (Hnp p' x). }
  destruct (decode_fields _ _ _ _ _) as [x|e' x|p x|] eqn:Hloop;
    simpl in Hfail; try discriminate.
  - injection Hfail as -> _.
    destruct (decode_fields_fail_inv _ _ _ _ _ _ _ Hloop) as (f & v & Hd).
    eapply Hfield; eauto.
  - destruct (decode_fields_panic_inv _ _ _ _ _ _ _ Hloop) as (f & v & Hd).
    now apply Hnopanic in Hd.
Qed.

(** C9: with no mutation step, the call is the same whatever the mapping
    holds (it reads nothing from it); every scalar field keeps its
    state; and a visited struct or pointer-to-struct field that is not
    embedded makes the call return an error, the shape error with the
    empty Name. *)
Theorem C9_empty_pipeline from to :
  Decode NewDecoder from to = Decode NewDecoder ∅ to
  /\ (forall fs i f,
        NewStruct to = inr fs -> fs !! i = Some f ->
        is_struct_field (TypeOf (fvalue f)) = false ->
        exists to' fs', state_of (Decode NewDecoder from to) = Some to'
          /\ NewStruct to' = inr fs' /\ fs' !! i = Some f)
  /\ (forall fs i f,
        NewStruct to = inr fs -> i ∈ Fields to fs -> fs !! i = Some f ->
        is_struct_field (TypeOf (fvalue f)) = true -> IsEmbedded f = false ->
        exists to', Decode NewDecoder from to = Fail (EShape "") to').
Proof.
  split; [apply Decode_fuel_empty_from|]. split.
  - intros fs i f Hs Hf Hscalar.
    now apply (scalar_invalid_untouched NewDecoder from to fs i f (fresh f)).
  - intros fs i f Hs Hi Hf Hstruct Hemb.
    pose proof (Decode_returns NewDecoder from to) as Hret.
    destruct (Decode NewDecoder from to) as [a|e a|p a|] eqn:Hdec;
      try contradiction.
    + exfalso. rewrite Decode_unfold in Hdec. unfold Decode_body in Hdec.
      rewrite Hs in Hdec.
      destruct (decode_fields _ _ _ _ _) as [x|e x|p x|] eqn:Hloop;
        try discriminate.
      destruct (decode_fields_done_inv _ _ _ _ _ _ _ _ (Fields_NoDup to fs)
                  Hloop Hi Hf) as [v Hv].
      unfold decode_field in Hv. rewrite pipeline_empty in Hv. simpl in Hv.
      rewrite Hstruct in Hv. unfold decode_struct in Hv. rewrite Hemb in Hv.
      discriminate.
    + exists a. f_equal. eapply empty_pipeline_error; eauto.
Qed.

(** ** Sessions *)

Section Sessions.
Context {W : Type}.

Lemma with_captured_same (wd : World W) : with_captured wd (captured wd) = wd.
Proof. now destruct wd. Qed.

Lemma run_mutations_w_read_only from fieldName i (ms : list (StatefulFunc W))
    fp lookups (c : W) :
  Forall read_only ms ->
  run_mutations_w from fieldName i ms fp c
  = (fst (run_mutations from fieldName i
            ((fun m fp => fst (m fp c)) <$> ms) fp lookups), c).
Proof.
  intros Hms. revert i fp lookups.
  induction Hms as [|m ms Hm Hms IH]; intros i fp lookups; simpl;
    [reflexivity|].
  specialize (Hm fp c). destruct (m fp c) as [r c']. simpl in *. subst c'.
  destruct r as [fp'|e|p]; try reflexivity.
  destruct (i =? 0)%nat; apply IH.
Qed.

Lemma decode_field_w_read_only rec rec' from f (wd : World W) :
  Forall read_only (registered wd) ->
  (forall sub h, rec sub h wd = (rec' sub h, wd)) ->
  decode_field_w rec from f wd
  = (decode_field rec' (frozen wd) from f, wd).
Proof.
  intros Hro Hrec. unfold decode_field_w, decode_field, pipeline.
  rewrite (run_mutations_w_read_only _ _ _ _ _ [] _ Hro).
  rewrite with_captured_same. simpl.
  destruct (fst (run_mutations _ _ _ _ _ _)) as [fp|e|p]; try reflexivity.
  destruct (Skip fp); [reflexivity|].
  destruct (is_struct_field _); [|reflexivity].
  unfold decode_struct_w, decode_struct.
  destruct (if IsEmbedded f then Some from else as_mapping (Value fp));
    [|reflexivity].
  now rewrite Hrec.
Qed.

Lemma decode_fields_w_read_only rec rec' from idxs fs (wd : World W) :
  Forall read_only (registered wd) ->
  (forall sub h, rec sub h wd = (rec' sub h, wd)) ->
  decode_fields_w rec from idxs fs wd
  = (decode_fields rec' (frozen wd) from idxs fs, wd).
Proof.
  intros Hro Hrec. revert fs.
  induction idxs as [|i idxs IH]; intros fs; simpl; [reflexivity|].
  destruct (fs !! i) as [f|]; [|apply IH].
  rewrite (decode_field_w_read_only rec rec' from f wd Hro Hrec).
  destruct (decode_field rec' (frozen wd) from f); try reflexivity. apply IH.
Qed.

Lemma Decode_fuel_w_read_only n from to (wd : World W) :
  Forall read_only (registered wd) ->
  Decode_fuel_w n from to wd = (Decode_fuel n (frozen wd) from to, wd).
Proof.
  intros Hro. revert from to.
  induction n as [|n IH]; intros from to; simpl; [reflexivity|].
  unfold Decode_body_w, Decode_body.
  destruct (NewStruct to) as [e|fs]; [reflexivity|].
  now rewrite (decode_fields_w_read_only _ (Decode_fuel n (frozen wd))
                 from (Fields to fs) fs wd Hro IH).
Qed.

(** With steps that leave their state as it was, a call leaves the
    memory as it was, and returns what the pipeline, the mapping and the
    target determine. *)
Lemma Decode_w_read_only from to (wd : World W) :
  Forall read_only (registered wd) ->
  Decode_w from to wd = (Decode (frozen wd) from to, wd).
Proof. apply Decode_fuel_w_read_only. Qed.

Lemma run_decodes (wd : World W) (cs : list (call W)) :
  Forall read_only (registered wd) ->
  forallb is_decode cs = true ->
  snd (run wd cs) = wd
  /\ forall i from to, cs !! i = Some (CallDecode from to) ->
       fst (run wd cs) !! i = Some (Some (Decode (frozen wd) from to)).
Proof.
  intros Hro. induction cs as [|c cs IH]; simpl; intros Hall.
  - split; [reflexivity|]. intros i from to Hi. discriminate.
  - apply andb_true_iff in Hall as [Hc Hall]. destruct (IH Hall) as [Hd Hr].
    destruct c as [m|from0 to0]; [discriminate|]. simpl.
    rewrite (Decode_w_read_only from0 to0 wd Hro).
    destruct (run wd cs) as [rs final]. simpl in *.
    split; [exact Hd|]. intros [|i] from to Hi; simpl in *.
    + now injection Hi as -> ->.
    + now apply Hr.
Qed.


End Sessions.

(** ** Assignment through pointers *)

Lemma Type__ptrs (n : nat) (t : type) :
  TKind t <> KPtr -> internal.Type_ (ptrs n t) = t.
Proof.
  intros Ht. induction n as [|n IH]; simpl; [|exact IH].
  destruct t; try reflexivity. now contradiction Ht.
Qed.

Lemma deref_refs (n : nat) (v : value) : deref n (refs n v) = Some v.
Proof. induction n; simpl; auto. Qed.

Lemma SetValue_at_ptrs (n : nat) (t : type) (v : value) :
  TKind t <> KPtr -> AssignableTo (TypeOf v) t = true ->
  internal.SetValue_at (ptrs n t) v = inr (refs n (store t v)).
Proof.
  intros Ht Hassign. induction n as [|n IH]; simpl.
  - destruct t; simpl; unfold Set_; try (now rewrite Hassign).
    now contradiction Ht.
  - now rewrite IH.
Qed.

(** C1: [internal.SetValue] assigns through any number of pointer
    layers: on a slot of type pointer^n to t it leaves exactly n new
    cells around the value, and dereferencing n times yields the value.
    [Decode] does not: its scalar branch strips one layer only, so for a
    field with two or more layers and a value that is not a pointer the
    conversion is refused and the call fails with the mismatch error; a
    three-layer string field given the string A fails this way, the
    field left pointing to a nil pointer. *)
Theorem C1_SetValue_any_depth_Decode_one_layer :
  (forall n t target v,
     TKind t <> KPtr -> TypeOf target = ptrs n t ->
     AssignableTo (TypeOf v) t = true ->
     internal.SetValue target v = inr (refs n (store t v))
     /\ deref n (refs n (store t v)) = Some (store t v))
  /\ (forall n t f fp v,
        TypeOf (fvalue f) = ptrs (S (S n)) t ->
        resolved (Value fp) = Some v -> TKind (TypeOf v) <> KPtr ->
        ConvertibleTo (TypeOf v) (ptrs (S n) t) = false ->
        decode_scalar fp f
        = Fail (EMismatch (fname f) (TypeOf v) (ptrs (S n) t))
               (allocated (fvalue f)))
  /\ Decode (R := frag_reflect) noop_decoder letter deep
     = Fail (EMismatch "A" TString (TPtr (TPtr TString)))
            (VRef (VStruct [MkField "A" "" false (VRef (VNil (TPtr TString)))])).
Proof.
  split; [|split; [|vm_compute; reflexivity]].
  - intros n t target v Ht Htarget Hassign. unfold internal.SetValue.
    rewrite Htarget. split; [now apply SetValue_at_ptrs|apply deref_refs].
  - intros n t f fp v Hty Hv Hkind Hconv. unfold decode_scalar.
    rewrite Hv, TypeOf_allocated, Hty. simpl ptrs.
    change (slot_type (TPtr (TPtr (ptrs n t)))) with (TPtr (ptrs n t)).
    simpl ptrs in Hconv. rewrite Hconv.
    rewrite bool_decide_eq_false_2; [reflexivity|exact Hkind].
Qed.

End Claims.

(** * Further properties *)

(** ** Package internal: types and values behind pointers *)

(** X1: [internal.Type] returns a type that is not a pointer, which it
    leaves as it is, and the given type is that type under the pointer
    layers it had. *)
Theorem X1_Type_strips_every_pointer (t : type) :
  TKind (internal.Type_ t) <> KPtr
  /\ internal.Type_ (internal.Type_ t) = internal.Type_ t
  /\ t = ptrs (plevel t) (internal.Type_ t).
Proof.
  induction t; simpl; try (repeat split; [discriminate|reflexivity..]).
  destruct IHt as (Hk & Hi & Hp). repeat split; try assumption.
  now rewrite <- Hp.
Qed.

Lemma Value_valid_resolved :
  forall (v : value) (fi : bool) (x : value),
    internal.Value_valid v fi = Some x ->
    TKind (TypeOf x) <> KPtr
    /\ (fi = true -> TKind (TypeOf x) <> KInterface)
    /\ internal.Value_valid x fi = Some x.
Proof.
  fix IH 1. intros v fi x. destruct v as [b|k z|s|t|y|t l|m|o|fs]; simpl;
    try (intros [= <-]; simpl; clear IH; repeat split; done).
  - exact (IH y fi x).
  - destruct fi.
    + destruct o as [y|]; [exact (IH y true x)|intros H; discriminate H].
    + intros [= <-]. simpl. clear IH. repeat split; done.
Qed.

(** X2: what [internal.Value] returns, when valid, is not a pointer, is
    not an interface either when [fromInterface] is set, and resolves to
    itself. *)
Theorem X2_Value_is_resolved (v : value) (fromInterface : bool) (x : value) :
  internal.Value (Some v) fromInterface = Some x ->
  TKind (TypeOf x) <> KPtr
  /\ (fromInterface = true -> TKind (TypeOf x) <> KInterface)
  /\ internal.Value (Some x) fromInterface = Some x.
Proof. apply Value_valid_resolved. Qed.

(** X3: pointer layers do not change what [internal.Value] returns, and
    a nil pointer under any number of layers gives the zero Value. *)
Theorem X3_Value_through_pointers (n : nat) (v : value) (t : type)
    (fromInterface : bool) :
  internal.Value (Some (refs n v)) fromInterface
  = internal.Value (Some v) fromInterface
  /\ internal.Value (Some (refs n (VNil t))) fromInterface = None.
Proof.
  assert (forall w, internal.Value (Some (refs n w)) fromInterface
                    = internal.Value (Some w) fromInterface) as Hrefs
    by (intros w; induction n as [|n IH]; simpl in *; auto).
  split; [apply Hrefs|]. now rewrite Hrefs.
Qed.

(** X4: the value [internal.Value] reaches through pointers has the
    type [internal.Type] reaches through the pointer types. *)
Theorem X4_Value_has_the_Type (v x : value) :
  internal.Value (Some v) false = Some x ->
  TypeOf x = internal.Type_ (TypeOf v).
Proof.
  simpl. induction v; simpl; try (now intros [= <-]). assumption.
Qed.

Section Further.
Context `{R : Reflect}.

(** ** Package internal: assignment through pointers *)

Lemma SetValue_at_closed (t : type) (v : value) :
  internal.SetValue_at t v
  = if AssignableTo (TypeOf v) (internal.Type_ t)
    then inr (refs (plevel t) (store (internal.Type_ t) v))
    else inl (FSet (TypeOf v) (internal.Type_ t)).
Proof.
  induction t; simpl; unfold Set_; simpl; try reflexivity.
  rewrite IHt. now destruct (AssignableTo _ _).
Qed.

(** X5: [internal.SetValue] completes exactly when the type of the value
    is assignable to the type under the pointer layers of the target,
    leaving one new cell per layer around the value; otherwise it panics
    with the fault of [Set] for these two types. *)
Theorem X5_SetValue_completes_iff_assignable (target v : value) :
  internal.SetValue target v
  = if AssignableTo (TypeOf v) (internal.Type_ (TypeOf target))
    then inr (refs (plevel (TypeOf target))
                   (store (internal.Type_ (TypeOf target)) v))
    else inl (FSet (TypeOf v) (internal.Type_ (TypeOf target))).
Proof. apply SetValue_at_closed. Qed.

(** X6: after [internal.SetValue] of a value that is not a pointer,
    [internal.Value] of the target is the value set. *)
Theorem X6_SetValue_then_Value (target v : value) :
  AssignableTo (TypeOf v) (internal.Type_ (TypeOf target)) = true ->
  TKind (TypeOf v) <> KPtr ->
  exists x, internal.SetValue target v = inr x
    /\ internal.Value (Some x) false
       = Some (store (internal.Type_ (TypeOf target)) v).
Proof.
  intros Hassign Hv. unfold internal.SetValue.
  rewrite SetValue_at_closed, Hassign. eexists. split; [reflexivity|].
  assert (forall n w, internal.Value (Some (refs n w)) false
                      = internal.Value (Some w) false) as Hrefs
    by (intros n w; induction n as [|n IH]; simpl in *; auto).
  rewrite Hrefs. simpl.
  destruct (internal.Type_ (TypeOf target)), v; simpl in *;
    try reflexivity; now contradiction Hv.
Qed.

Lemma TypeOf_store (t : type) (v : value) :
  TypeOf v = t \/ t = TInterface -> TypeOf (store t v) = t.
Proof.
  intros [<-| ->]; [|now destruct v].
  now destruct v.
Qed.

Lemma ptrs_plevel (t : type) : t = ptrs (plevel t) (internal.Type_ t).
Proof. induction t; simpl; try reflexivity. now rewrite <- IHt. Qed.

Lemma TypeOf_refs (n : nat) (v : value) : TypeOf (refs n v) = ptrs n (TypeOf v).
Proof. induction n as [|n IH]; simpl; [reflexivity|now rewrite IH]. Qed.

(** X7: [internal.SetValue] keeps the type of the target, for a value
    of the type under its pointer layers or when that type is
    [interface{}]. *)
Theorem X7_SetValue_keeps_the_type (target v x : value) :
  internal.SetValue target v = inr x ->
  TypeOf v = internal.Type_ (TypeOf target)
  \/ internal.Type_ (TypeOf target) = TInterface ->
  TypeOf x = TypeOf target.
Proof.
  unfold internal.SetValue. rewrite SetValue_at_closed.
  destruct (AssignableTo _ _); [|discriminate]. intros [= <-] Hty.
  rewrite TypeOf_refs, (TypeOf_store _ _ Hty).
  symmetry. apply ptrs_plevel.
Qed.

(** ** The decoder and its pipeline *)

Lemma mutations_foldl (decoder : Decoder) (ms : list MutationFunc) :
  mutations (foldl AddMutation decoder ms) = (mutations decoder ++ ms)%list.
Proof.
  revert decoder. induction ms as [|m ms IH]; intros decoder; simpl.
  - now rewrite app_nil_r.
  - rewrite IH. simpl. now rewrite <- app_assoc.
Qed.

(** X8: [AddMutation] appends: after any sequence of registrations the
    pipeline is the former pipeline followed by the registered steps in
    the order of registration; from [NewDecoder] it is that sequence. *)
Theorem X8_AddMutation_keeps_registration_order
    (decoder : Decoder) (ms : list MutationFunc) :
  mutations (foldl AddMutation decoder ms) = (mutations decoder ++ ms)%list
  /\ mutations (foldl AddMutation NewDecoder ms) = ms.
Proof. split; [apply mutations_foldl|now rewrite mutations_foldl]. Qed.

(** X9: the steps of a pipeline compose from left to right: running two
    sequences in a row is running the second on the descriptor the first
    leaves, at the indices that follow; an error or a panic of the first
    ends the run, and no later step is called. *)
Theorem X9_pipeline_steps_compose
    from fieldName (i : nat) (ms1 ms2 : list MutationFunc) fp lookups :
  run_mutations from fieldName i (ms1 ++ ms2) fp lookups
  = match run_mutations from fieldName i ms1 fp lookups with
    | (POk fp1, lookups1) =>
        run_mutations from fieldName (i + length ms1) ms2 fp1 lookups1
    | r => r
    end.
Proof.
  revert i fp lookups.
  induction ms1 as [|m ms1 IH]; intros i fp lookups; simpl.
  - now rewrite Nat.add_0_r.
  - destruct (m fp) as [fp'| |]; try reflexivity.
    rewrite <- Nat.add_succ_comm. destruct (i =? 0)%nat; apply IH.
Qed.

(** ** How a call ends at one field *)

(** X10: when a step returns an error for a field the loop reaches, the
    call returns that very error; when a step panics, the call returns
    the recovered fault; in both cases the field is as it was. *)
Theorem X10_step_failure_aborts_the_call
    decoder from to fs (pre : list nat) i post f :
  NewStruct to = inr fs -> Fields to fs = (pre ++ i :: post)%list ->
  reached decoder from fs pre -> fs !! i = Some f ->
  match fst (pipeline decoder from f) with
  | PErr e =>
      exists to' fs', Decode decoder from to = Fail (EStep e) to'
        /\ NewStruct to' = inr fs' /\ fs' !! i = Some f
  | PPanic p =>
      exists to' fs', Decode decoder from to = Fail (EFault (FUser p)) to'
        /\ NewStruct to' = inr fs' /\ fs' !! i = Some f
  | POk _ => True
  end.
Proof.
  intros Hs Hfields Hpre Hf.
  pose proof (Decode_at decoder from to fs pre i post f Hs Hfields Hpre Hf)
    as Hat.
  unfold decode_field in Hat.
  destruct (fst (pipeline decoder from f)) as [fp|e|p]; [exact I| |];
    destruct Hat as (to' & fs' & Hto & _ & Hs' & Hi);
    rewrite with_value_fvalue in Hi; eauto.
Qed.

(** X11: a field whose descriptor leaves the pipeline with [Skip] set is
    left as it is, whatever its type and its value in the mapping: no
    assignment, no allocation, no nested call, no error. *)
Theorem X11_skipped_field_is_untouched decoder from to fs i f fp :
  NewStruct to = inr fs -> fs !! i = Some f ->
  fst (pipeline decoder from f) = POk fp -> Skip fp = true ->
  decode_field (Decode decoder) decoder from f = Done (fvalue f)
  /\ exists to' fs', state_of (Decode decoder from to) = Some to'
       /\ NewStruct to' = inr fs' /\ fs' !! i = Some f.
Proof.
  intros Hs Hf Hfp Hskip.
  assert (decode_field (Decode decoder) decoder from f = Done (fvalue f))
    as Hd by (unfold decode_field; now rewrite Hfp, Hskip).
  split; [exact Hd|].
  destruct (Decode_state decoder from to fs Hs) as (fs' & Hst & Hto & Hs').
  exists (with_fields to fs'), fs'. repeat split; try assumption.
  destruct (decode_fields_cases _ _ _ _ _ _ _ _ (Fields_NoDup to fs) Hf Hst)
    as [Hu|(v & Hv & Hu)]; [exact Hu|].
  rewrite Hd in Hv. injection Hv as <-. now rewrite with_value_fvalue in Hu.
Qed.

(** X16: for a struct or pointer-to-struct field that is not embedded
    and whose descriptor value is a mapping, the nested call receives
    that mapping and nothing of the parent's: the iteration of the field
    is the call of [Decode] with the sub-mapping on the field. *)
Theorem X16_named_field_decodes_from_its_mapping decoder from f fp m :
  is_struct_field (TypeOf (fvalue f)) = true -> IsEmbedded f = false ->
  fst (pipeline decoder from f) = POk fp -> Skip fp = false ->
  Value fp = Some (VMapping m) ->
  decode_field (Decode decoder) decoder from f
  = match fvalue f with
    | VNil t => Decode decoder m (New t)
    | s => omap (fun h => match h with VRef x => x | _ => s end)
                (Decode decoder m (VRef s))
    end.
Proof.
  intros Hstruct Hemb Hfp Hskip Hm.
  unfold decode_field. rewrite Hfp, Hskip, Hstruct.
  unfold decode_struct, struct_handle, allocated. rewrite Hemb, Hm. simpl.
  destruct (is_nil_ptr (fvalue f)) eqn:Hnil.
  - destruct (is_nil_ptr_inv _ Hnil) as [t ->]. simpl.
    now destruct (Decode decoder m (New t)).
  - destruct (fvalue f); try reflexivity. discriminate.
Qed.

(** X17: a type mismatch on a nil pointer field is reported after the
    pointer has been allocated: the call fails with the mismatch error
    and the field points to a new zero value. *)
Theorem X17_mismatch_leaves_the_pointer_allocated
    decoder from to fs (pre : list nat) i post f fp v t :
  NewStruct to = inr fs -> Fields to fs = (pre ++ i :: post)%list ->
  reached decoder from fs pre -> fs !! i = Some f ->
  fvalue f = VNil t -> TKind t <> KStruct ->
  fst (pipeline decoder from f) = POk fp -> Skip fp = false ->
  resolved (Value fp) = Some v ->
  ConvertibleTo (TypeOf v) t = false -> TKind (TypeOf v) <> TKind t ->
  exists to' fs',
    Decode decoder from to = Fail (EMismatch (fname f) (TypeOf v) t) to'
    /\ NewStruct to' = inr fs'
    /\ fs' !! i = Some (with_value f (VRef (Zero t))).
Proof.
  intros Hs Hfields Hpre Hf Hnil Ht Hfp Hskip Hv Hconv Hkind.
  pose proof (Decode_at decoder from to fs pre i post f Hs Hfields Hpre Hf)
    as Hat.
  unfold decode_field in Hat. rewrite Hfp, Hskip, Hnil in Hat.
  assert (is_struct_field (TypeOf (VNil t)) = false) as Hscalar.
  { unfold is_struct_field. simpl.
    now rewrite (bool_decide_eq_false_2 _ Ht). }
  rewrite Hscalar in Hat. unfold decode_scalar in Hat.
  rewrite Hv, Hnil in Hat.
  change (allocated (VNil t)) with (New t) in Hat.
  change (slot_type (TypeOf (New t))) with (TypeOf (Zero t)) in Hat.
  rewrite TypeOf_Zero, Hconv in Hat.
  rewrite (bool_decide_eq_false_2 _ Hkind) in Hat.
  destruct Hat as (to' & fs' & Hto & _ & Hs' & Hi). eauto.
Qed.

(** ** The state a call leaves *)

(** The loop after a prefix of fields that decode without error. *)
Lemma decode_fields_prefix rec decoder from (pre rest : list nat) fs :
  NoDup pre ->
  (forall j g, j ∈ pre -> fs !! j = Some g ->
     exists v, decode_field rec decoder from g = Done v) ->
  exists fs1,
    decode_fields rec decoder from (pre ++ rest) fs
    = decode_fields rec decoder from rest fs1
    /\ (forall j, j ∉ pre -> fs1 !! j = fs !! j)
    /\ (forall j g w, j ∈ pre -> fs !! j = Some g ->
          decode_field rec decoder from g = Done w ->
          fs1 !! j = Some (with_value g w)).
Proof.
  intros Hnd. revert fs.
  induction Hnd as [|j0 pre Hj0 Hnd IH]; intros fs Hpre.
  - exists fs. split; [reflexivity|]. split; [reflexivity|].
    intros j g w Hj. now apply elem_of_nil in Hj.
  - simpl. destruct (fs !! j0) as [g0|] eqn:Hg0.
    + destruct (Hpre j0 g0 (list_elem_of_here _ _) Hg0) as [v0 Hv0].
      rewrite Hv0.
      destruct (IH (<[j0 := with_value g0 v0]> fs)) as (fs1 & Heq & Hout & Hin).
      { intros j g Hj Hg. apply (Hpre j g); [now apply list_elem_of_further|].
        rewrite list_lookup_insert_ne in Hg; [assumption|].
        intros ->. contradiction. }
      exists fs1. split; [exact Heq|]. split.
      * intros j Hj. apply not_elem_of_cons in Hj as [Hne Hj].
        rewrite (Hout j Hj). now apply list_lookup_insert_ne.
      * intros j g w Hj Hg Hw. apply elem_of_cons in Hj as [->|Hj].
        -- rewrite Hg0 in Hg. injection Hg as <-.
           rewrite Hv0 in Hw. injection Hw as <-.
           rewrite (Hout j0 Hj0). apply list_lookup_insert_eq.
           now apply lookup_lt_Some in Hg0.
        -- apply Hin; try assumption.
           rewrite list_lookup_insert_ne; [assumption|].
           intros ->. contradiction.
    + destruct (IH fs) as (fs1 & Heq & Hout & Hin).
      { intros j g Hj Hg. apply (Hpre j g); [now apply list_elem_of_further|].
        assumption. }
      exists fs1. split; [exact Heq|]. split.
      * intros j Hj. apply not_elem_of_cons in Hj as [Hne Hj]. now apply Hout.
      * intros j g w Hj Hg Hw. apply elem_of_cons in Hj as [->|Hj].
        -- rewrite Hg0 in Hg. discriminate.
        -- now apply Hin.
Qed.

(** X12: the first error ends the call without rollback: the call
    returns the error of the failing field, the fields visited before
    keep what was decoded into them, and the fields that follow are not
    touched. *)
Theorem X12_first_error_stops_without_rollback
    decoder from to fs (pre : list nat) i post f e v :
  NewStruct to = inr fs -> Fields to fs = (pre ++ i :: post)%list ->
  reached decoder from fs pre -> fs !! i = Some f ->
  decode_field (Decode decoder) decoder from f = Fail e v ->
  exists to' fs',
    Decode decoder from to = Fail e to'
    /\ NewStruct to' = inr fs'
    /\ fs' !! i = Some (with_value f v)
    /\ (forall j, j ∈ post -> fs' !! j = fs !! j)
    /\ (forall j g w, j ∈ pre -> fs !! j = Some g ->
          decode_field (Decode decoder) decoder from g = Done w ->
          fs' !! j = Some (with_value g w)).
Proof.
  intros Hs Hfields Hpre Hf Hfail.
  pose proof (Fields_NoDup to fs) as Hnd. rewrite Hfields in Hnd.
  apply NoDup_app in Hnd as (Hndpre & Hdisj & Hnd).
  apply NoDup_cons in Hnd as [Hipost Hndpost].
  destruct (decode_fields_prefix (Decode decoder) decoder from pre (i :: post)
              fs Hndpre Hpre) as (fs1 & Heq & Hout & Hin).
  assert (i ∉ pre) as Hipre.
  { intros Hi. apply (Hdisj i Hi), list_elem_of_here. }
  assert (fs1 !! i = Some f) as Hf1 by (now rewrite (Hout i Hipre)).
  pose proof (lookup_lt_Some _ _ _ Hf1) as Hlt.
  exists (with_fields to (<[i := with_value f v]> fs1)),
         (<[i := with_value f v]> fs1).
  split.
  { rewrite Decode_unfold. unfold Decode_body. rewrite Hs, Hfields, Heq.
    simpl. now rewrite Hf1, Hfail. }
  split; [eapply NewStruct_with_fields; eauto|].
  split; [now apply list_lookup_insert_eq|]. split.
  - intros j Hj.
    assert (j <> i) as Hji by (intros ->; contradiction).
    rewrite list_lookup_insert_ne by auto. apply Hout.
    intros Hjpre. apply (Hdisj j Hjpre). now apply list_elem_of_further.
  - intros j g w Hj Hg Hw.
    assert (j <> i) as Hji by (intros ->; contradiction).
    rewrite list_lookup_insert_ne by auto. now apply (Hin j g w).
Qed.

Lemma decode_fields_done_at rec decoder from idxs fs fs' i f :
  NoDup idxs ->
  decode_fields rec decoder from idxs fs = Done fs' ->
  i ∈ idxs -> fs !! i = Some f ->
  exists v, decode_field rec decoder from f = Done v
    /\ fs' !! i = Some (with_value f v).
Proof.
  intros Hnd. revert fs.
  induction Hnd as [|j idxs Hj Hnd IH]; intros fs Hdone Hi Hf.
  - now apply elem_of_nil in Hi.
  - simpl in Hdone. apply elem_of_cons in Hi as [->|Hi].
    + rewrite Hf in Hdone.
      destruct (decode_field rec decoder from f) as [v| | |]; try discriminate.
      exists v. split; [reflexivity|].
      assert (state_of (decode_fields rec decoder from idxs
                          (<[j := with_value f v]> fs)) = Some fs') as Hst
        by (now rewrite Hdone).
      rewrite (decode_fields_frame _ _ _ _ _ _ _ Hj Hst).
      apply list_lookup_insert_eq. now apply lookup_lt_Some in Hf.
    + assert (j <> i) as Hji by (intros ->; contradiction).
      destruct (fs !! j) as [g|] eqn:Hg; [|now apply (IH fs)].
      destruct (decode_field rec decoder from g); try discriminate.
      eapply IH; [exact Hdone|assumption|].
      now rewrite list_lookup_insert_ne.
Qed.

(** X13: when a call returns without error, every visited field went
    through its iteration without error and holds what that iteration
    left, and every other field is as it was. *)
Theorem X13_success_means_every_field_decoded decoder from to to' fs :
  NewStruct to = inr fs -> Decode decoder from to = Done to' ->
  exists fs',
    to' = with_fields to fs' /\ NewStruct to' = inr fs'
    /\ (forall i f, i ∈ Fields to fs -> fs !! i = Some f ->
          exists v, decode_field (Decode decoder) decoder from f = Done v
            /\ fs' !! i = Some (with_value f v))
    /\ (forall i, i ∉ Fields to fs -> fs' !! i = fs !! i).
Proof.
  intros Hs Hdone. rewrite Decode_unfold in Hdone.
  unfold Decode_body in Hdone. rewrite Hs in Hdone.
  destruct (decode_fields (Decode decoder) decoder from (Fields to fs) fs)
    as [fs'| | |] eqn:Hloop; try discriminate.
  injection Hdone as <-. exists fs'. split; [reflexivity|].
  split; [eapply NewStruct_with_fields; eauto|]. split.
  - intros i f Hi Hf.
    eapply decode_fields_done_at; eauto using Fields_NoDup.
  - intros i Hi. eapply decode_fields_frame; [exact Hi|].
    now rewrite Hloop.
Qed.

(** ** Types are kept *)

Lemma TypeOf_VStruct (fs : list field) : TypeOf (VStruct fs) = TStruct (ftypes fs).
Proof.
  simpl. f_equal. induction fs as [|[n tg a x] r IH]; simpl; [reflexivity|].
  now rewrite IH.
Qed.

Lemma ftypes_insert (fs : list field) (i : nat) (f : field) (v : value) :
  fs !! i = Some f -> TypeOf v = TypeOf (fvalue f) ->
  ftypes (<[i := with_value f v]> fs) = ftypes fs.
Proof.
  intros Hf Hv. unfold ftypes. rewrite list_fmap_insert.
  apply list_insert_id. rewrite list_lookup_fmap, Hf. simpl.
  destruct f. simpl in *. now rewrite Hv.
Qed.

Lemma TypeOf_with_fields (s : value) (fs fs' : list field) :
  internal.Value_valid s false = Some (VStruct fs) ->
  ftypes fs' = ftypes fs ->
  TypeOf (with_fields s fs') = TypeOf s.
Proof.
  intros Hs Hty. induction s; simpl in Hs; try discriminate.
  - simpl. now rewrite IHs.
  - injection Hs as ->. change (with_fields (VStruct fs) fs') with (VStruct fs').
    now rewrite !TypeOf_VStruct, Hty.
Qed.

Lemma ptr_kind_inv (t : type) : TKind t = KPtr -> exists e, t = TPtr e.
Proof. destruct t; try discriminate. eauto. Qed.

Lemma TypeOf_assigned (fv x : value) :
  TypeOf x = slot_type (TypeOf fv) -> TypeOf (assigned fv x) = TypeOf fv.
Proof.
  unfold assigned, slot_type. case_bool_decide as Hk; [|auto].
  destruct (ptr_kind_inv _ Hk) as [e He]. rewrite He. simpl. now intros ->.
Qed.

Lemma decode_scalar_type fp f v :
  reflect_lawful ->
  state_of (decode_scalar fp f) = Some v -> TypeOf v = TypeOf (fvalue f).
Proof.
  intros [Hconv Hassign]. unfold decode_scalar.
  destruct (resolved (Value fp)) as [x|]; [|now intros [= <-]].
  rewrite TypeOf_allocated.
  set (slot := slot_type (TypeOf (fvalue f))).
  set (x' := if ConvertibleTo (TypeOf x) slot then Convert x slot else x).
  case_bool_decide; [|simpl; intros [= <-]; apply TypeOf_allocated].
  unfold Set_. destruct (AssignableTo (TypeOf x') slot) eqn:Ha; simpl;
    intros [= <-]; [|apply TypeOf_allocated].
  apply TypeOf_assigned, TypeOf_store. now apply Hassign.
Qed.

Lemma decode_struct_type rec from fp f v :
  (forall sub h h', state_of (rec sub h) = Some h' -> TypeOf h' = TypeOf h) ->
  state_of (decode_struct rec from fp f) = Some v ->
  TypeOf v = TypeOf (fvalue f).
Proof.
  intros Hrec. unfold decode_struct.
  destruct (if IsEmbedded f then Some from else as_mapping (Value fp)) as [sub|];
    [|simpl; intros [= <-]; apply TypeOf_allocated].
  rewrite state_of_omap.
  destruct (state_of (rec sub (struct_handle (fvalue f)))) as [h'|] eqn:Hst;
    [|discriminate].
  apply Hrec in Hst. simpl. intros [= <-].
  unfold struct_handle, allocated in *.
  destruct (is_nil_ptr (fvalue f)) eqn:Hnil.
  - rewrite Hst. destruct (is_nil_ptr_inv _ Hnil) as [t ->]. simpl.
    now rewrite TypeOf_Zero.
  - destruct h'; simpl in Hst; try discriminate; try reflexivity.
    now injection Hst.
Qed.

Lemma decode_field_type rec decoder from f v :
  reflect_lawful ->
  (forall sub h h', state_of (rec sub h) = Some h' -> TypeOf h' = TypeOf h) ->
  state_of (decode_field rec decoder from f) = Some v ->
  TypeOf v = TypeOf (fvalue f).
Proof.
  intros Hlaw Hrec. unfold decode_field.
  destruct (fst (pipeline decoder from f)); try (now intros [= <-]).
  destruct (Skip fp); [now intros [= <-]|].
  destruct (is_struct_field _);
    [now apply decode_struct_type|now apply decode_scalar_type].
Qed.

Lemma decode_fields_type rec decoder from idxs fs fs' :
  (forall f v, state_of (decode_field rec decoder from f) = Some v ->
               TypeOf v = TypeOf (fvalue f)) ->
  state_of (decode_fields rec decoder from idxs fs) = Some fs' ->
  ftypes fs' = ftypes fs.
Proof.
  intros Hfield. revert fs.
  induction idxs as [|i idxs IH]; intros fs; simpl; [now intros [= <-]|].
  destruct (fs !! i) as [f|] eqn:Hf; [|apply IH].
  destruct (decode_field rec decoder from f) as [v|e v|p v|] eqn:Hd;
    simpl; try discriminate;
    assert (TypeOf v = TypeOf (fvalue f)) as Hv
      by (apply Hfield; now rewrite Hd).
  - intros Hst. rewrite (IH _ Hst). now apply ftypes_insert.
  - intros [= <-]. now apply ftypes_insert.
  - intros [= <-]. now apply ftypes_insert.
Qed.

Lemma Decode_fuel_type n decoder from to to' :
  reflect_lawful ->
  state_of (Decode_fuel n decoder from to) = Some to' ->
  TypeOf to' = TypeOf to.
Proof.
  intros Hlaw. revert from to to'.
  induction n as [|n IH]; intros from to to'; simpl; [discriminate|].
  rewrite state_of_recover. unfold Decode_body.
  destruct (NewStruct to) as [e|fs] eqn:Hs; [now intros [= <-]|].
  rewrite state_of_omap.
  destruct (state_of (decode_fields _ _ _ _ _)) as [fs'|] eqn:Hst;
    [|discriminate].
  simpl. intros [= <-].
  apply (TypeOf_with_fields _ fs); [now apply NewStruct_inv|].
  eapply decode_fields_type; [|exact Hst].
  intros f v. apply decode_field_type; [exact Hlaw|]. intros sub h h'. apply IH.
Qed.

(** X15: a call keeps the type of its target, however it ends: on
    every path (assignment, allocation, nested call, error, recovered
    fault) each field holds a value of its declared type, given that
    reflect's conversions return the type asked for and that a type is
    assignable only to itself or to [interface{}]. *)
Theorem X15_Decode_keeps_the_type_of_the_target decoder from to to' :
  reflect_lawful ->
  state_of (Decode decoder from to) = Some to' ->
  TypeOf to' = TypeOf to.
Proof. intros Hlaw. now apply Decode_fuel_type. Qed.

(** ** Decoding again *)

Lemma tdepth_ftypes (fs : list field) (i : nat) (f : field) :
  fs !! i = Some f ->
  (tdepth (TypeOf (fvalue f)) < tdepth (TStruct (ftypes fs)))%nat.
Proof.
  simpl. revert i. induction fs as [|[n tg a x] r IH]; intros i Hi.
  - discriminate.
  - destruct i as [|i]; simpl in Hi.
    + injection Hi as <-. simpl. lia.
    + specialize (IH _ Hi). simpl in *. lia.
Qed.

Lemma tdepth_field (s : value) (fs : list field) (i : nat) (f : field) :
  NewStruct s = inr fs -> fs !! i = Some f ->
  (tdepth (TypeOf (fvalue f)) < tdepth (TypeOf s))%nat.
Proof.
  intros Hs Hf. apply NewStruct_inv in Hs.
  assert (tdepth (TypeOf s) = tdepth (TStruct (ftypes fs))) as ->.
  { induction s; simpl in Hs; try discriminate.
    - simpl. now apply IHs.
    - injection Hs as ->. now rewrite TypeOf_VStruct. }
  now apply (tdepth_ftypes fs i).
Qed.

Lemma with_fields_again (s : value) (fs gs : list field) :
  with_fields (with_fields s fs) gs = with_fields s gs.
Proof. induction s; simpl; try reflexivity. now rewrite IHs. Qed.

Lemma addressable_with_fields (s : value) (fs : list field) :
  addressable (with_fields s fs) = addressable s.
Proof. now destruct s. Qed.

Lemma visible_ftypes (fs gs : list field) (i : nat) :
  ftypes gs = ftypes fs -> visible gs i = visible fs i.
Proof.
  intros Hty. unfold visible.
  assert (ftypes gs !! i = ftypes fs !! i) as Hi by (now rewrite Hty).
  unfold ftypes in Hi. rewrite !list_lookup_fmap in Hi.
  destruct (gs !! i) as [g|], (fs !! i) as [f|]; simpl in Hi;
    try discriminate; [|reflexivity].
  injection Hi as Hn _ _ _. now rewrite Hn.
Qed.

Lemma Fields_ftypes (s s' : value) (fs gs : list field) :
  addressable s' = addressable s -> ftypes gs = ftypes fs ->
  Fields s' gs = Fields s fs.
Proof.
  intros Ha Hty. unfold Fields. rewrite Ha.
  destruct (addressable s); [|reflexivity].
  assert (length gs = length fs) as ->.
  { assert (length (ftypes gs) = length (ftypes fs)) as Hlen
      by (now rewrite Hty).
    unfold ftypes in Hlen. now rewrite !length_fmap in Hlen. }
  apply list_filter_iff. intros i. now rewrite (visible_ftypes fs gs i Hty).
Qed.

(** A call through one more pointer is the call on the pointer. *)
Lemma Decode_ref decoder from (h : value) :
  addressable h = true ->
  Decode decoder from (VRef h) = omap VRef (Decode decoder from h).
Proof.
  intros Ha. rewrite !Decode_unfold. unfold Decode_body.
  change (NewStruct (VRef h)) with (NewStruct h).
  destruct (NewStruct h) as [e|fs]; [reflexivity|].
  assert (Fields (VRef h) fs = Fields h fs) as ->
    by (unfold Fields; now rewrite Ha).
  now destruct (decode_fields _ _ _ _ _).
Qed.

(** The state a call leaves on a pointer is a pointer, nil only if the
    pointer was. *)
Lemma Decode_ref_shape decoder from (x h' : value) :
  state_of (Decode decoder from (VRef x)) = Some h' ->
  exists x', h' = VRef x' /\ is_nil_ptr x' = is_nil_ptr x.
Proof.
  rewrite Decode_unfold, state_of_recover. unfold Decode_body.
  destruct (NewStruct (VRef x)) as [e|fs]; simpl.
  - intros [= <-]. eauto.
  - rewrite state_of_omap.
    destruct (state_of (decode_fields _ _ _ _ _)) as [fs'|]; [|discriminate].
    simpl. intros [= <-]. eexists. split; [reflexivity|].
    now destruct x.
Qed.

Lemma omap_agree {A B : Type} (g g' : A -> B) (o : outcome A) :
  (forall a, state_of o = Some a -> g a = g' a) -> omap g o = omap g' o.
Proof. destruct o; simpl; intros H; try rewrite H; reflexivity. Qed.

Lemma omap_omap {A B C : Type} (g : A -> B) (g' : B -> C) (o : outcome A) :
  omap g' (omap g o) = omap (fun a => g' (g a)) o.
Proof. now destruct o. Qed.

Lemma is_nil_ptr_allocated (v : value) : is_nil_ptr (allocated v) = false.
Proof.
  unfold allocated. destruct (is_nil_ptr v) eqn:Hnil; [reflexivity|exact Hnil].
Qed.

Lemma allocated_not_nil (v : value) : is_nil_ptr v = false -> allocated v = v.
Proof. unfold allocated. now intros ->. Qed.

Lemma decode_scalar_again fp f f' v :
  reflect_lawful ->
  fname f' = fname f ->
  state_of (decode_scalar fp f) = Some v -> fvalue f' = v ->
  decode_scalar fp f' = decode_scalar fp f.
Proof.
  intros [Hconv Hassign] Hname. unfold decode_scalar.
  destruct (resolved (Value fp)) as [x|]; [|now intros [= <-] ->].
  rewrite Hname, !TypeOf_allocated.
  set (slot := slot_type (TypeOf (fvalue f))).
  set (x' := if ConvertibleTo (TypeOf x) slot then Convert x slot else x).
  destruct (bool_decide (TKind (TypeOf x') = TKind slot)) eqn:Hk.
  - unfold Set_. destruct (AssignableTo (TypeOf x') slot) eqn:Ha; simpl.
    + intros [= <-] Hv.
      assert (TypeOf (fvalue f') = TypeOf (fvalue f)) as Hty.
      { rewrite Hv. apply TypeOf_assigned, TypeOf_store. now apply Hassign. }
      rewrite Hty. fold slot. fold x'. rewrite Hk, Ha. f_equal.
      unfold assigned. now rewrite Hty.
    + intros [= <-] Hv.
      assert (TypeOf (fvalue f') = TypeOf (fvalue f)) as Hty
        by (rewrite Hv; apply TypeOf_allocated).
      rewrite Hty. fold slot. fold x'. rewrite Hk, Ha. f_equal.
      rewrite Hv. apply allocated_not_nil, is_nil_ptr_allocated.
  - simpl. intros [= <-] Hv.
    assert (TypeOf (fvalue f') = TypeOf (fvalue f)) as Hty
      by (rewrite Hv; apply TypeOf_allocated).
    rewrite Hty. fold slot. fold x'. rewrite Hk. f_equal.
    rewrite Hv. apply allocated_not_nil, is_nil_ptr_allocated.
Qed.

Lemma decode_struct_again decoder from fp f f' v :
  (forall sub h',
     state_of (Decode decoder sub (struct_handle (fvalue f))) = Some h' ->
     Decode decoder sub h' = Decode decoder sub (struct_handle (fvalue f))) ->
  IsEmbedded f' = IsEmbedded f ->
  state_of (decode_struct (Decode decoder) from fp f) = Some v ->
  fvalue f' = v ->
  decode_struct (Decode decoder) from fp f'
  = decode_struct (Decode decoder) from fp f.
Proof.
  intros IH Hemb. unfold decode_struct. rewrite Hemb.
  destruct (if IsEmbedded f then Some from else as_mapping (Value fp)) as [sub|].
  - rewrite state_of_omap.
    destruct (state_of (Decode decoder sub (struct_handle (fvalue f))))
      as [h'|] eqn:Hst; [|discriminate].
    simpl. intros [= <-] Hv.
    pose proof (IH sub h' Hst) as Hagain.
    unfold struct_handle in *.
    destruct (is_nil_ptr (fvalue f)) eqn:Hnil.
    + destruct (Decode_ref_shape decoder sub _ h' Hst) as (x' & -> & _).
      assert (is_nil_ptr (fvalue f') = false) as Hnil'
        by (now rewrite Hv).
      rewrite Hnil', Hv.
      rewrite (Decode_ref decoder sub (VRef x') eq_refl), Hagain, omap_omap.
      apply omap_agree. intros a Ha. reflexivity.
    + destruct (Decode_ref_shape decoder sub _ h' Hst) as (x' & -> & Hx').
      rewrite Hnil in Hx'. rewrite Hv, Hx', Hagain.
      apply omap_agree. intros a Ha. rewrite Hst in Ha. now injection Ha as <-.
  - simpl. intros [= <-] Hv. rewrite Hv.
    f_equal. apply allocated_not_nil, is_nil_ptr_allocated.
Qed.

Lemma Decode_type decoder sub h h' :
  reflect_lawful ->
  state_of (Decode decoder sub h) = Some h' -> TypeOf h' = TypeOf h.
Proof. intros Hlaw. now apply Decode_fuel_type. Qed.

Lemma decode_field_again decoder from f v :
  reflect_lawful ->
  (forall sub h',
     state_of (Decode decoder sub (struct_handle (fvalue f))) = Some h' ->
     Decode decoder sub h' = Decode decoder sub (struct_handle (fvalue f))) ->
  state_of (decode_field (Decode decoder) decoder from f) = Some v ->
  decode_field (Decode decoder) decoder from (with_value f v)
  = decode_field (Decode decoder) decoder from f.
Proof.
  intros Hlaw IH Hst.
  assert (TypeOf v = TypeOf (fvalue f)) as Hty.
  { eapply decode_field_type; [exact Hlaw| |exact Hst].
    intros sub h h'. now apply Decode_type. }
  assert (pipeline decoder from (with_value f v) = pipeline decoder from f)
    as Hpipe.
  { unfold pipeline, fresh. destruct f. simpl in *. now rewrite Hty. }
  assert (fvalue (with_value f v) = v) as Hv by (now destruct f).
  assert (fname (with_value f v) = fname f) as Hname by (now destruct f).
  assert (IsEmbedded (with_value f v) = IsEmbedded f) as Hemb
    by (now destruct f).
  unfold decode_field in *. rewrite Hpipe, Hv, Hty.
  destruct (fst (pipeline decoder from f)) as [fp|e|p].
  - destruct (Skip fp); [now injection Hst as <-|].
    destruct (is_struct_field (TypeOf (fvalue f))).
    + eapply decode_struct_again; eauto.
    + eapply decode_scalar_again; eauto.
  - now injection Hst as <-.
  - now injection Hst as <-.
Qed.

Lemma with_value_again (f : field) (v : value) :
  with_value (with_value f v) v = with_value f v.
Proof. now destruct f. Qed.

Lemma decode_fields_again rec decoder from idxs fs fs1 :
  NoDup idxs ->
  (forall i f v, i ∈ idxs -> fs !! i = Some f ->
     state_of (decode_field rec decoder from f) = Some v ->
     decode_field rec decoder from (with_value f v)
     = decode_field rec decoder from f) ->
  state_of (decode_fields rec decoder from idxs fs) = Some fs1 ->
  decode_fields rec decoder from idxs fs1
  = decode_fields rec decoder from idxs fs.
Proof.
  intros Hnd. revert fs.
  induction Hnd as [|i idxs Hi Hnd IH]; intros fs Hfield Hst;
    [simpl in *; now injection Hst as ->|].
  pose proof (decode_fields_length _ _ _ _ _ _ Hst) as Hlen.
  simpl in Hst |- *. destruct (fs !! i) as [f|] eqn:Hf.
  - pose proof (lookup_lt_Some _ _ _ Hf) as Hlt.
    assert (forall v, state_of (decode_field rec decoder from f) = Some v ->
                      fs1 !! i = Some (with_value f v)) as Hi1.
    { intros v Hv.
      destruct (decode_field rec decoder from f) as [w|e w|p w|];
        simpl in Hv, Hst; try discriminate; injection Hv as ->.
      - rewrite (decode_fields_frame _ _ _ _ _ _ _ Hi Hst).
        now apply list_lookup_insert_eq.
      - injection Hst as <-. now apply list_lookup_insert_eq.
      - injection Hst as <-. now apply list_lookup_insert_eq. }
    assert (forall v, state_of (decode_field rec decoder from f) = Some v ->
                      decode_field rec decoder from (with_value f v)
                      = decode_field rec decoder from f) as Hagain
      by (intros v; apply (Hfield i f v (list_elem_of_here _ _) Hf)).
    destruct (decode_field rec decoder from f) as [v|e v|p v|] eqn:Hd;
      simpl in Hst; try discriminate;
      rewrite (Hi1 v eq_refl), (Hagain v eq_refl), with_value_again,
        (list_insert_id _ _ _ (Hi1 v eq_refl)).
    + apply IH; [|exact Hst]. intros j g w Hj Hg.
      apply (Hfield j g w); [now apply list_elem_of_further|].
      rewrite list_lookup_insert_ne in Hg; [assumption|].
      intros ->. contradiction.
    + now injection Hst as <-.
    + now injection Hst as <-.
  - assert (fs1 !! i = None) as ->.
    { apply lookup_ge_None. rewrite Hlen. now apply lookup_ge_None. }
    apply IH; [|exact Hst]. intros j g w Hj Hg.
    apply (Hfield j g w); [now apply list_elem_of_further|assumption].
Qed.

Lemma tdepth_struct_handle (v : value) :
  tdepth (TypeOf (struct_handle v)) = tdepth (TypeOf v).
Proof.
  unfold struct_handle. destruct (is_nil_ptr v) eqn:Hnil; [|reflexivity].
  destruct (is_nil_ptr_inv _ Hnil) as [t ->]. simpl. now rewrite TypeOf_Zero.
Qed.

Lemma Decode_again_bounded decoder :
  reflect_lawful ->
  forall N from to to1,
    (tdepth (TypeOf to) < N)%nat ->
    state_of (Decode decoder from to) = Some to1 ->
    Decode decoder from to1 = Decode decoder from to.
Proof.
  intros Hlaw. induction N as [|N IH]; intros from to to1 HN Hst; [lia|].
  rewrite Decode_unfold in Hst. rewrite (Decode_unfold _ _ to1), (Decode_unfold _ _ to).
  rewrite state_of_recover in Hst. unfold Decode_body in *.
  destruct (NewStruct to) as [e|fs] eqn:Hs.
  - injection Hst as <-. now rewrite Hs.
  - rewrite state_of_omap in Hst.
    destruct (state_of (decode_fields (Decode decoder) decoder from
                          (Fields to fs) fs)) as [fs1|] eqn:Hloop;
      [|discriminate].
    injection Hst as <-.
    rewrite (NewStruct_with_fields _ _ fs1 Hs).
    assert (ftypes fs1 = ftypes fs) as Hty.
    { eapply decode_fields_type; [|exact Hloop].
      intros f v. apply decode_field_type; [exact Hlaw|].
      intros sub h h'. now apply Decode_type. }
    rewrite (Fields_ftypes to (with_fields to fs1) fs fs1
               (addressable_with_fields _ _) Hty).
    assert (forall i f v, i ∈ Fields to fs -> fs !! i = Some f ->
              state_of (decode_field (Decode decoder) decoder from f) = Some v ->
              decode_field (Decode decoder) decoder from (with_value f v)
              = decode_field (Decode decoder) decoder from f) as Hfield.
    { intros i f v _ Hf Hv. apply decode_field_again; try assumption.
      intros sub h' Hh'. apply (IH sub); [|exact Hh'].
      rewrite tdepth_struct_handle.
      pose proof (tdepth_field _ _ _ _ Hs Hf). lia. }
    rewrite (decode_fields_again _ _ _ _ _ _ (Fields_NoDup to fs) Hfield Hloop).
    f_equal. apply omap_agree. intros a _. apply with_fields_again.
Qed.

(** X18: decoding is idempotent: a second call with the same mapping on
    the target state a call left returns what the first call returned
    and leaves that state as it is, given that reflect's conversions
    return the type asked for and that a type is assignable only to
    itself or to [interface{}]. *)
Theorem X18_Decode_is_idempotent decoder from to to1 :
  reflect_lawful ->
  state_of (Decode decoder from to) = Some to1 ->
  Decode decoder from to1 = Decode decoder from to
  /\ state_of (Decode decoder from to1) = Some to1.
Proof.
  intros Hlaw Hst.
  assert (Decode decoder from to1 = Decode decoder from to) as Heq
    by (eapply (Decode_again_bounded decoder Hlaw); [apply Nat.lt_succ_diag_r|exact Hst]).
  split; [exact Heq|now rewrite Heq].
Qed.

End Further.

(** ** The properties on the scenarios *)

#[local] Existing Instance frag_reflect.

Lemma reached_nil decoder from fs : reached decoder from fs [].
Proof. intros j g Hj. now apply elem_of_nil in Hj. Qed.

Lemma reached_one decoder from fs j0 g0 v0 :
  fs !! j0 = Some g0 ->
  decode_field (Decode decoder) decoder from g0 = Done v0 ->
  reached decoder from fs [j0].
Proof.
  intros Hg Hd j g Hj Hf. apply list_elem_of_singleton in Hj. subst j.
  rewrite Hg in Hf. injection Hf as <-. eauto.
Qed.

(** P1: the preset Name survives a mapping without the key. *)
Lemma C2_witness :
  decode_field (Decode noop_decoder) noop_decoder ∅
    (MkField "Name" "" false (VString "preset"))
  = Done (VString "preset")
  /\ exists to' fs', state_of (Decode noop_decoder ∅ person) = Some to'
       /\ NewStruct to' = inr fs'
       /\ fs' !! 0%nat = Some (MkField "Name" "" false (VString "preset")).
Proof.
  apply (C2_invalid_input_leaves_field (R := frag_reflect) noop_decoder ∅
           person
           [MkField "Name" "" false (VString "preset");
            MkField "MyAddress" "" false (VStruct [Address_field ""])]
           0 (MkField "Name" "" false (VString "preset"))
           {| Name := "Name"; Value := None; Type_ := TString; Tag := "";
              Skip := false |});
    reflexivity.
Defined.

(** P4: a string where the mapping of MyAddress is expected; the only
    step leaves Name empty, so the error carries the identifier. *)
Lemma C5_witness :
  (exists to', Decode noop_decoder not_a_map person
               = Fail (EShape "MyAddress") to')
  /\ (mutations noop_decoder = [] -> "MyAddress" = "")
  /\ (forall first fp1,
        mutations noop_decoder = [first] ->
        first (fresh (MkField "MyAddress" "" false (VStruct [Address_field ""])))
        = MOk fp1 ->
        "MyAddress" = if bool_decide (Name fp1 = "") then "MyAddress"
                      else Name fp1).
Proof.
  apply (C5_shape_error_carries_descriptor_name (R := frag_reflect)
           noop_decoder not_a_map person
           [MkField "Name" "" false (VString "preset");
            MkField "MyAddress" "" false (VStruct [Address_field ""])]
           [0%nat] 1 [] (MkField "MyAddress" "" false (VStruct [Address_field ""]))
           {| Name := "MyAddress"; Value := Some (VString "not-a-map");
              Type_ := SubRecord; Tag := ""; Skip := false |});
    try reflexivity.
  eapply reached_one; [reflexivity|vm_compute; reflexivity].
Defined.

(** C5 as stated fails: the error does not name the field.  With no
    step the descriptor's Name stays empty and the error for MyAddress
    carries the empty string; with a first step that names every
    descriptor zzz the error carries zzz. *)
Lemma C5_counterexample :
  Decode NewDecoder not_a_map person = Fail (EShape "") person
  /\ Decode renaming not_a_map person
     = Fail (EShape "zzz")
            (VRef (VStruct [MkField "Name" "" false (VString "preset");
                            MkField "MyAddress" "" false
                              (VStruct [Address_field ""])]))
  /\ "" <> "MyAddress" /\ "zzz" <> "MyAddress".
Proof. repeat split; try discriminate; vm_compute; reflexivity. Qed.

(** An [int8] is converted and assigned to an [int] field; an [[]int]
    given for a [[]string] field passes the kind test and faults. *)
Lemma C6_witness :
  (decode_field (Decode noop_decoder) noop_decoder age8
     (MkField "Age" "" false (VInt Int 0))
   = Done (VInt Int 20)
   /\ exists to' fs', state_of (Decode noop_decoder age8 aged) = Some to'
        /\ NewStruct to' = inr fs'
        /\ fs' !! 0%nat = Some (MkField "Age" "" false (VInt Int 20)))
  /\ exists to' fs',
       Decode noop_decoder ints numbers
       = Fail (EFault (FSet (TSlice (TInt Int)) (TSlice TString))) to'
       /\ NewStruct to' = inr fs'
       /\ fs' !! 0%nat = Some (MkField "Numbers" "" false (VSlice TString [])).
Proof.
  split.
  - destruct (C6_convert_then_assign_or_fail (R := frag_reflect) noop_decoder
                age8 aged [MkField "Age" "" false (VInt Int 0)] [] 0 []
                (MkField "Age" "" false (VInt Int 0))
                {| Name := "Age"; Value := Some (VInt Int8 20);
                   Type_ := TInt Int; Tag := ""; Skip := false |}
                (VInt Int8 20)
                eq_refl eq_refl (reached_nil _ _ _) eq_refl eq_refl eq_refl
                eq_refl eq_refl) as (Hassign & _ & _).
    apply Hassign; reflexivity.
  - destruct (C6_convert_then_assign_or_fail (R := frag_reflect) noop_decoder
                ints numbers [MkField "Numbers" "" false (VSlice TString [])]
                [] 0 [] (MkField "Numbers" "" false (VSlice TString []))
                {| Name := "Numbers";
                   Value := Some (VSlice (TInt Int) [VInt Int 1]);
                   Type_ := TSlice TString; Tag := ""; Skip := false |}
                (VSlice (TInt Int) [VInt Int 1])
                eq_refl eq_refl (reached_nil _ _ _) eq_refl eq_refl eq_refl
                eq_refl eq_refl) as (_ & _ & Hfault).
    apply Hfault; reflexivity.
Defined.

(** The failing input of C6: an [[]int] given for a [[]string] field is
    not convertible and has the kind of the field, so the kind test lets
    it pass; the call then returns the recovered fault of [Set], not the
    mismatch error that names the field, and nothing is assigned. *)
Lemma C6_failing_input :
  ConvertibleTo (TSlice (TInt Int)) (TSlice TString) = false
  /\ TKind (TSlice (TInt Int)) = TKind (TSlice TString)
  /\ Decode noop_decoder ints numbers
     = Fail (EFault (FSet (TSlice (TInt Int)) (TSlice TString))) numbers
  /\ Decode noop_decoder ints numbers
     <> Fail (EMismatch "Numbers" (TSlice (TInt Int)) (TSlice TString)) numbers
  /\ ~ exists to', Decode noop_decoder ints numbers = Done to'.
Proof.
  split; [reflexivity|]. split; [reflexivity|].
  assert (Decode noop_decoder ints numbers
          = Fail (EFault (FSet (TSlice (TInt Int)) (TSlice TString))) numbers)
    as Hd by (vm_compute; reflexivity).
  split; [exact Hd|]. rewrite Hd. split; [discriminate|].
  intros [to' Hto]. discriminate.
Qed.

(** P3: the embedded nil pointer is decoded with the parent's mapping. *)
Lemma C7_witness :
  decode_field (Decode noop_decoder) noop_decoder street embedding
  = Decode noop_decoder street (New SubRecord)
  /\ Decode noop_decoder street
       (VRef (VStruct [MkField "SubRecord" "" true (VStruct [Address_field ""])]))
     = Done (VRef (VStruct [MkField "SubRecord" "" true
                              (VStruct [Address_field "Street A"])])).
Proof.
  apply (C7_embedded_shares_mapping (R := frag_reflect) noop_decoder street
           embedding
           {| Name := "SubRecord"; Value := None; Type_ := TPtr SubRecord;
              Tag := ""; Skip := false |});
    reflexivity.
Defined.

(** The nil MyAddress pointer is allocated although the call fails. *)
Lemma C10_witness :
  exists s to' fs',
    VRef (Zero SubRecord) = VRef s
    /\ Decode noop_decoder not_a_map person_ptr = Fail (EShape "MyAddress") to'
    /\ NewStruct to' = inr fs'
    /\ fs' !! 1%nat = Some (MkField "MyAddress" "" false (VRef s))
    /\ (false = false -> @None SourceMapping = None ->
        EShape "MyAddress" = EShape "MyAddress" /\ s = Zero SubRecord).
Proof.
  apply (C10_failed_pointer_field_is_allocated (R := frag_reflect)
           noop_decoder not_a_map person_ptr
           [MkField "Name" "" false (VString "");
            MkField "MyAddress" "" false (VNil SubRecord)]
           [0%nat] 1 [] (MkField "MyAddress" "" false (VNil SubRecord))
           {| Name := "MyAddress"; Value := Some (VString "not-a-map");
              Type_ := TPtr SubRecord; Tag := ""; Skip := false |}
           SubRecord (EShape "MyAddress") (VRef (Zero SubRecord)));
    try reflexivity.
  eapply reached_one; [reflexivity|vm_compute; reflexivity].
Defined.

(** C10 as stated fails: when the error is the error of a step, the
    call returns before the allocation and the nil pointer-to-struct
    field is still nil. *)
Lemma C10_counterexample :
  Decode refusing_address not_a_map person_ptr
  = Fail (EStep "required")
         (VRef (VStruct [MkField "Name" "" false (VString "Ann");
                         MkField "MyAddress" "" false (VNil SubRecord)]))
  /\ decode_field (Decode refusing_address) refusing_address not_a_map
       (MkField "MyAddress" "" false (VNil SubRecord))
     = Fail (EStep "required") (VNil SubRecord).
Proof. split; vm_compute; reflexivity. Qed.

(** C3 as stated fails: the fault of the nested record is caught by the
    nested call, which returns it as an error; the body of the outer call
    ends with that error, no fault reaches the outer deferred function. *)
Lemma C3_counterexample :
  Decode_body (Decode noop_decoder) noop_decoder ints numbers
  = Panic (FSet (TSlice (TInt Int)) (TSlice TString)) numbers
  /\ Decode noop_decoder ints numbers
     = Fail (EFault (FSet (TSlice (TInt Int)) (TSlice TString))) numbers
  /\ decode_field (Decode noop_decoder) noop_decoder nested_ints
       (MkField "B" "" false
          (VStruct [MkField "Numbers" "" false (VSlice TString [])]))
     = omap (fun h => match h with VRef x => x | _ => h end)
            (Decode noop_decoder ints numbers)
  /\ Decode_body (Decode noop_decoder) noop_decoder nested_ints nested_numbers
     = Fail (EFault (FSet (TSlice (TInt Int)) (TSlice TString))) nested_numbers.
Proof. repeat split; vm_compute; reflexivity. Qed.

(** The same nested fault, through the general statement. *)
Lemma C3_witness :
  Decode noop_decoder ints numbers
  = Fail (EFault (FSet (TSlice (TInt Int)) (TSlice TString))) numbers
  /\ exists to',
       Decode_body (Decode noop_decoder) noop_decoder nested_ints nested_numbers
       = Fail (EFault (FSet (TSlice (TInt Int)) (TSlice TString))) to'
       /\ Decode noop_decoder nested_ints nested_numbers
          = Fail (EFault (FSet (TSlice (TInt Int)) (TSlice TString))) to'.
Proof.
  destruct (C3_every_call_recovers (R := frag_reflect) noop_decoder
              nested_ints nested_numbers) as (_ & _ & Hnested).
  apply (Hnested
           [MkField "B" "" false
              (VStruct [MkField "Numbers" "" false (VSlice TString [])])]
           [] 0%nat []
           (MkField "B" "" false
              (VStruct [MkField "Numbers" "" false (VSlice TString [])]))
           {| Name := "B"; Value := Some (VMapping ints);
              Type_ := TStruct [MkTField "Numbers" "" false (TSlice TString)];
              Tag := ""; Skip := false |}
           ints (FSet (TSlice (TInt Int)) (TSlice TString)) numbers);
    first [reflexivity | apply reached_nil | (vm_compute; reflexivity)].
Defined.

(** Without steps the preset Name stays and MyAddress is refused. *)
Lemma C9_witness :
  Decode NewDecoder not_a_map person = Decode NewDecoder ∅ person
  /\ (exists to' fs', state_of (Decode NewDecoder not_a_map person) = Some to'
        /\ NewStruct to' = inr fs'
        /\ fs' !! 0%nat = Some (MkField "Name" "" false (VString "preset")))
  /\ exists to', Decode NewDecoder not_a_map person = Fail (EShape "") to'.
Proof.
  destruct (C9_empty_pipeline (R := frag_reflect) not_a_map person)
    as (Hfrom & Hscalar & Hstruct).
  split; [exact Hfrom|]. split.
  - apply (Hscalar
             [MkField "Name" "" false (VString "preset");
              MkField "MyAddress" "" false (VStruct [Address_field ""])]
             0%nat (MkField "Name" "" false (VString "preset")));
      reflexivity.
  - apply (Hstruct
             [MkField "Name" "" false (VString "preset");
              MkField "MyAddress" "" false (VStruct [Address_field ""])]
             1%nat (MkField "MyAddress" "" false (VStruct [Address_field ""])));
      try reflexivity.
    vm_compute. apply list_elem_of_further, list_elem_of_here.
Defined.



(** [internal.SetValue] on a nil [***string] with the string A: three
    cells, and the string under them. *)
Lemma C1_witness :
  internal.SetValue (VNil (TPtr (TPtr TString))) (VString "A")
  = inr (VRef (VRef (VRef (VString "A"))))
  /\ deref 3 (VRef (VRef (VRef (VString "A")))) = Some (VString "A").
Proof.
  destruct (C1_SetValue_any_depth_Decode_one_layer (R := frag_reflect))
    as (Hset & _ & _).
  apply (Hset 3%nat TString (VNil (TPtr (TPtr TString))) (VString "A"));
    [discriminate|reflexivity|reflexivity].
Defined.

(** ** The further properties on the scenarios *)

Lemma type_eqb_eq (s : type) : forall t, type_eqb s t = true -> s = t.
Proof.
  induction s as [|k| |e IH|e IH| | |fs IH] using type_nested_ind;
    intros t; destruct t as [|k'| |e'|e'| | |gs]; simpl;
    try discriminate; try reflexivity.
  - intros Hk. apply bool_decide_eq_true_1 in Hk. now subst.
  - intros He. now rewrite (IH _ He).
  - intros He. now rewrite (IH _ He).
  - intros Hfs. f_equal. revert gs Hfs.
    induction IH as [|[n tg a x] r Hx _ IHr]; intros [|[n' tg' a' y] gs];
      try discriminate; [reflexivity|].
    intros Hfs. simpl in Hx.
    apply andb_true_iff in Hfs as [Hfs Hr].
    apply andb_true_iff in Hfs as [Hfs Hxy].
    apply andb_true_iff in Hfs as [Hfs Ha].
    apply andb_true_iff in Hfs as [Hn Htg].
    apply bool_decide_eq_true_1 in Hn, Htg, Ha. subst.
    now rewrite (Hx _ Hxy), (IHr _ Hr).
Qed.

Lemma frag_lawful : reflect_lawful.
Proof.
  split.
  - intros v t. simpl. intros Hc.
    apply orb_true_iff in Hc as [Hc|Hc];
      [apply orb_true_iff in Hc as [Hc|Hc]|].
    + apply type_eqb_eq in Hc. subst t. now destruct v.
    + destruct t; try discriminate. now destruct v.
    + apply andb_true_iff in Hc as [Hv Ht].
      destruct t; try discriminate. destruct v; try discriminate. reflexivity.
  - intros s t. simpl. intros Ha. apply orb_true_iff in Ha as [Ha|Ha].
    + left. now apply type_eqb_eq.
    + right. now destruct t.
Qed.

Lemma X2_witness :
  TKind (TypeOf (VString "A")) <> KPtr
  /\ (false = true -> TKind (TypeOf (VString "A")) <> KInterface)
  /\ internal.Value (Some (VString "A")) false = Some (VString "A").
Proof.
  apply (X2_Value_is_resolved (VRef (VRef (VString "A"))) false (VString "A")).
  reflexivity.
Defined.

Lemma X4_witness :
  TypeOf (VString "A") = internal.Type_ (TypeOf (VRef (VRef (VString "A")))).
Proof.
  apply (X4_Value_has_the_Type (VRef (VRef (VString "A"))) (VString "A")).
  reflexivity.
Defined.

Lemma X6_witness :
  exists x, internal.SetValue (VNil (TPtr (TPtr TString))) (VString "A") = inr x
    /\ internal.Value (Some x) false = Some (VString "A").
Proof.
  apply (X6_SetValue_then_Value (R := frag_reflect)
           (VNil (TPtr (TPtr TString))) (VString "A"));
    [reflexivity|discriminate].
Defined.

Lemma X7_witness :
  TypeOf (VRef (VRef (VRef (VString "A")))) = TypeOf (VNil (TPtr (TPtr TString))).
Proof.
  apply (X7_SetValue_keeps_the_type (R := frag_reflect)
           (VNil (TPtr (TPtr TString))) (VString "A"));
    [reflexivity|now left].
Defined.

(** Name is decoded, then the step on Age refuses or crashes. *)
Lemma X10_witness :
  (exists to' fs', Decode refusing update record = Fail (EStep "required") to'
     /\ NewStruct to' = inr fs'
     /\ fs' !! 2%nat = Some (MkField "Age" "" false (VInt Int 20)))
  /\ (exists to' fs',
        Decode crashing update record = Fail (EFault (FUser "boom")) to'
        /\ NewStruct to' = inr fs'
        /\ fs' !! 2%nat = Some (MkField "Age" "" false (VInt Int 20))).
Proof.
  split.
  - exact (X10_step_failure_aborts_the_call (R := frag_reflect) refusing
             update record record_fields [0%nat] 2 [3%nat]
             (MkField "Age" "" false (VInt Int 20))
             eq_refl eq_refl
             (reached_one refusing update record_fields 0
                (MkField "Name" "" false (VString "a")) (VString "b")
                eq_refl eq_refl)
             eq_refl).
  - exact (X10_step_failure_aborts_the_call (R := frag_reflect) crashing
             update record record_fields [0%nat] 2 [3%nat]
             (MkField "Age" "" false (VInt Int 20))
             eq_refl eq_refl
             (reached_one crashing update record_fields 0
                (MkField "Name" "" false (VString "a")) (VString "b")
                eq_refl eq_refl)
             eq_refl).
Defined.

(** Age is skipped although the mapping holds a string for it. *)
Lemma X11_witness :
  decode_field (Decode omitting) omitting update
    (MkField "Age" "" false (VInt Int 20))
  = Done (VInt Int 20)
  /\ exists to' fs', state_of (Decode omitting update record) = Some to'
       /\ NewStruct to' = inr fs'
       /\ fs' !! 2%nat = Some (MkField "Age" "" false (VInt Int 20)).
Proof.
  apply (X11_skipped_field_is_untouched (R := frag_reflect) omitting update
           record record_fields 2 (MkField "Age" "" false (VInt Int 20))
           {| Name := "Age"; Value := Some (VString "old"); Type_ := TInt Int;
              Tag := ""; Skip := true |});
    reflexivity.
Defined.

(** The string given for Age stops the call: Name is decoded, City is
    not. *)
Lemma X12_witness :
  exists to' fs',
    Decode noop_decoder update record
    = Fail (EMismatch "Age" TString (TInt Int)) to'
    /\ NewStruct to' = inr fs'
    /\ fs' !! 2%nat = Some (MkField "Age" "" false (VInt Int 20))
    /\ (forall j, j ∈ [3%nat] -> fs' !! j = record_fields !! j)
    /\ (forall j g w, j ∈ [0%nat] -> record_fields !! j = Some g ->
          decode_field (Decode noop_decoder) noop_decoder update g = Done w ->
          fs' !! j = Some (with_value g w)).
Proof.
  apply (X12_first_error_stops_without_rollback (R := frag_reflect)
           noop_decoder update record record_fields [0%nat] 2 [3%nat]
           (MkField "Age" "" false (VInt Int 20))
           (EMismatch "Age" TString (TInt Int)) (VInt Int 20));
    try reflexivity.
  eapply reached_one; reflexivity.
Defined.

(** With an [int8] for Age the call succeeds and Age is decoded. *)
Lemma X13_witness :
  exists fs',
    VRef (VStruct [MkField "Name" "" false (VString "b");
                   MkField "unexported" "" false (VString "kept");
                   MkField "Age" "" false (VInt Int 30);
                   MkField "City" "" false (VString "y")])
    = with_fields record fs'
    /\ NewStruct (VRef (VStruct [MkField "Name" "" false (VString "b");
                                 MkField "unexported" "" false (VString "kept");
                                 MkField "Age" "" false (VInt Int 30);
                                 MkField "City" "" false (VString "y")]))
       = inr fs'
    /\ (forall i f, i ∈ Fields record record_fields ->
          record_fields !! i = Some f ->
          exists v,
            decode_field (Decode noop_decoder) noop_decoder update_ok f = Done v
            /\ fs' !! i = Some (with_value f v))
    /\ (forall i, i ∉ Fields record record_fields ->
          fs' !! i = record_fields !! i).
Proof.
  apply (X13_success_means_every_field_decoded (R := frag_reflect)
           noop_decoder update_ok record); [reflexivity|].
  vm_compute. reflexivity.
Defined.

(** The failed call leaves a record of the same type. *)
Lemma X15_witness :
  TypeOf (VRef (VStruct [MkField "Name" "" false (VString "b");
                         MkField "unexported" "" false (VString "kept");
                         MkField "Age" "" false (VInt Int 20);
                         MkField "City" "" false (VString "x")]))
  = TypeOf record.
Proof.
  apply (X15_Decode_keeps_the_type_of_the_target (R := frag_reflect)
           noop_decoder update record); [exact frag_lawful|].
  vm_compute. reflexivity.
Defined.

(** MyAddress is decoded from its own mapping, not from the top-level
    Address. *)
Lemma X16_witness :
  decode_field (Decode noop_decoder) noop_decoder addressed
    (MkField "MyAddress" "" false (VStruct [Address_field ""]))
  = omap (fun h => match h with
                   | VRef x => x
                   | _ => VStruct [Address_field ""]
                   end)
         (Decode noop_decoder street (VRef (VStruct [Address_field ""]))).
Proof.
  apply (X16_named_field_decodes_from_its_mapping (R := frag_reflect)
           noop_decoder addressed
           (MkField "MyAddress" "" false (VStruct [Address_field ""]))
           {| Name := "MyAddress"; Value := Some (VMapping street);
              Type_ := SubRecord; Tag := ""; Skip := false |} street);
    reflexivity.
Defined.

(** A string for the nil [*int] Age: the error, and the pointer set. *)
Lemma X17_witness :
  exists to' fs',
    Decode noop_decoder update pointer_age
    = Fail (EMismatch "Age" TString (TInt Int)) to'
    /\ NewStruct to' = inr fs'
    /\ fs' !! 0%nat = Some (MkField "Age" "" false (VRef (VInt Int 0))).
Proof.
  apply (X17_mismatch_leaves_the_pointer_allocated (R := frag_reflect)
           noop_decoder update pointer_age
           [MkField "Age" "" false (VNil (TInt Int))] [] 0 []
           (MkField "Age" "" false (VNil (TInt Int)))
           {| Name := "Age"; Value := Some (VString "old");
              Type_ := TPtr (TInt Int); Tag := ""; Skip := false |}
           (VString "old") (TInt Int));
    first [reflexivity | apply reached_nil | discriminate].
Defined.

(** Decoding the failed record again fails the same way and changes
    nothing. *)
Lemma X18_witness :
  let left :=
    VRef (VStruct [MkField "Name" "" false (VString "b");
                   MkField "unexported" "" false (VString "kept");
                   MkField "Age" "" false (VInt Int 20);
                   MkField "City" "" false (VString "x")]) in
  Decode noop_decoder update left = Decode noop_decoder update record
  /\ state_of (Decode noop_decoder update left) = Some left.
Proof.
  intros left.
  apply (X18_Decode_is_idempotent (R := frag_reflect) noop_decoder update
           record left); [exact frag_lawful|].
  vm_compute. reflexivity.
Defined.
